(** * lab2: chunked parallel inclusive scan (variant 12) and its sweep driver

    A shallow embedding of [src/main.cpp] and the properties its
    specification states about it.

    Conventions of the embedding.
    - The template parameter [T] of [parallelInclusiveScan] is [int], its
      only instantiation in the program.
    - [int] is a 32-bit two's-complement integer, held in [Z]; the
      arithmetic wraps around ([wrap_int]).  C++ leaves signed overflow
      undefined; the wrap-around is what the targets of this program
      compute, and every statement that needs the absence of overflow says
      so.
    - [size_t] is a 64-bit unsigned integer, held in [Z], wrapping at
      [2^64] ([wrap_size]).
    - [std::vector<int>] is a [list Z]; [operator[]] and iterator ranges
      outside the vector are undefined behaviour and are modelled as the
      outcome [Undefined].
    - The worker threads of one phase write disjoint index ranges and are
      joined before the next phase starts; a phase is modelled by running
      the thread bodies one after the other in the order they are created.
      [ScheduleIndependence] shows the result is the same for every other
      order.
    - Thread creation, joins and the chunk-size division are recorded in a
      trace of [event]s, so that "no thread is spawned" and "the division
      is not reached" are statements about the program. *)

From Stdlib Require Import ZArith Lia.
From stdpp Require Import base tactics option list numbers.

Set Default Proof Using "Type".

(** ** Machine integers *)

Module MachineInt.
Local Open Scope Z_scope.

Definition int_min : Z := - 2 ^ 31.
Definition int_max : Z := 2 ^ 31 - 1.

(** Reduction of a mathematical integer to the [int] that represents it. *)
Definition wrap_int (z : Z) : Z := (z + 2 ^ 31) mod 2 ^ 32 - 2 ^ 31.

Definition in_int (z : Z) : Prop := int_min <= z <= int_max.

Definition int_add (a b : Z) : Z := wrap_int (a + b).
Definition int_sub (a b : Z) : Z := wrap_int (a - b).
Definition int_mul (a b : Z) : Z := wrap_int (a * b).

(** [unsigned int] (32 bits) and the conversion [(int)u]. *)
Definition uint_max : Z := 2 ^ 32 - 1.
Definition int_of_uint (u : Z) : Z := wrap_int u.

Definition size_modulus : Z := 2 ^ 64.
Definition wrap_size (z : Z) : Z := z mod size_modulus.

(** Conversion of an [int] operand to [size_t] (usual arithmetic
    conversions in [n + numThreads] and [t * chunkSize]). *)
Definition size_of_int (z : Z) : Z := wrap_size z.

Definition size_add (a b : Z) : Z := wrap_size (a + b).
Definition size_sub (a b : Z) : Z := wrap_size (a - b).
Definition size_mul (a b : Z) : Z := wrap_size (a * b).

(** [std::vector<int>::max_size()] on an LP64 target:
    [PTRDIFF_MAX / sizeof(int)]. *)
Definition vector_max_size : Z := (2 ^ 63 - 1) / 4.

End MachineInt.
Export MachineInt.

(** ** Outcomes, traces and the two monads of the model *)

Inductive ub : Type :=
| DivisionByZero
| OutOfRange.

Inductive outcome (A : Type) : Type :=
| Done (a : A)
| Undefined (u : ub).
Arguments Done {A} a.
Arguments Undefined {A} u.

#[export] Instance outcome_ret : MRet outcome := fun _ a => Done a.
#[export] Instance outcome_bind : MBind outcome := fun _ _ f m =>
  match m with
  | Done a => f a
  | Undefined u => Undefined u
  end.

Inductive event : Type :=
| EvDivide (num den : Z)   (* a [size_t] division is evaluated *)
| EvSpawn (t : Z)          (* [threads.emplace_back] for chunk index [t] *)
| EvJoin.                  (* one [th.join()] *)

Record M (A : Type) : Type := mkM { trace : list event; result_of : outcome A }.
Arguments mkM {A} trace result_of.
Arguments trace {A} m.
Arguments result_of {A} m.

#[export] Instance M_ret : MRet M := fun _ a => mkM [] (Done a).
#[export] Instance M_bind : MBind M := fun _ _ f m =>
  match result_of m with
  | Done a => let k := f a in mkM (trace m ++ trace k) (result_of k)
  | Undefined u => mkM (trace m) (Undefined u)
  end.

Definition lift {A} (o : outcome A) : M A := mkM [] o.
Definition emit (e : event) : M unit := mkM [e] (Done tt).

(** [for (x : xs) s = body(x, s)] in each of the two monads. *)
Fixpoint for_each {S : Type} (body : Z → S → outcome S) (xs : list Z) (s : S)
  : outcome S :=
  match xs with
  | [] => Done s
  | x :: xs' => s' ← body x s; for_each body xs' s'
  end.

Fixpoint for_eachM {S : Type} (body : Z → S → M S) (xs : list Z) (s : S) : M S :=
  match xs with
  | [] => mret s
  | x :: xs' => s' ← body x s; for_eachM body xs' s'
  end.

(** ** Vectors and the library functions the program calls *)

Section Library.
Local Open Scope Z_scope.

(** [std::vector<int> v(n)]: [n] value-initialised elements. *)
Definition vector_new (n : Z) : list Z := replicate (Z.to_nat n) 0.

Definition vector_size (v : list Z) : Z := Z.of_nat (length v).

(** [v[i]] as an rvalue. *)
Definition vector_read (v : list Z) (i : Z) : outcome Z :=
  if (0 <=? i) && (i <? vector_size v)
  then match v !! Z.to_nat i with
       | Some x => Done x
       | None => Undefined OutOfRange
       end
  else Undefined OutOfRange.

(** [v[i] = x]. *)
Definition vector_write (v : list Z) (i : Z) (x : Z) : outcome (list Z) :=
  if (0 <=? i) && (i <? vector_size v)
  then Done (<[Z.to_nat i := x]> v)
  else Undefined OutOfRange.

(** The elements of the iterator range [[v.begin() + first, v.begin() + last)]. *)
Definition vector_range (v : list Z) (first last : Z) : outcome (list Z) :=
  if (0 <=? first) && (first <=? last) && (last <=? vector_size v)
  then Done (take (Z.to_nat (last - first)) (drop (Z.to_nat first) v))
  else Undefined OutOfRange.

(** The loop of [std::inclusive_scan] once the first element is written:
    [for (; first != last; ++first) *result++ = init = init + *first;] *)
Fixpoint scan_loop (src : list Z) (init : Z) (dst : list Z) (pos : Z)
  : outcome (list Z) :=
  match src with
  | [] => Done dst
  | x :: src' =>
      let init' := int_add init x in
      dst' ← vector_write dst pos init';
      scan_loop src' init' dst' (pos + 1)
  end.

(** [std::inclusive_scan(v.begin() + first, v.begin() + last,
    dst.begin() + d_first)] of <numeric>, without execution policy: the
    first element is copied, every later one is the running sum.  The
    standard allows any grouping of the additions; [int] addition with
    wrap-around is associative ([int_add_assoc]), so every grouping gives
    these values. *)
Definition inclusive_scan (v : list Z) (first last : Z) (dst : list Z) (d_first : Z)
  : outcome (list Z) :=
  src ← vector_range v first last;
  match src with
  | [] => Done dst
  | x :: src' =>
      dst' ← vector_write dst d_first x;
      scan_loop src' x dst' (d_first + 1)
  end.

(** [a / b] on [size_t]; a zero divisor is undefined behaviour. *)
Definition size_div (a b : Z) : M Z :=
  emit (EvDivide a b);;
  lift (if b =? 0 then Undefined DivisionByZero else Done (a / b)).

End Library.

(** ** [parallelInclusiveScan] *)

Section ParallelInclusiveScan.
Local Open Scope Z_scope.

(** The single-threaded baseline:
    [inclusive_scan(input.begin(), input.end(), result.begin())]
    into a fresh [result(n)]. *)
Definition sequential_scan (input : list Z) : outcome (list Z) :=
  inclusive_scan input 0 (vector_size input) (vector_new (vector_size input)) 0.

Definition chunk_start (chunkSize t : Z) : Z :=
  size_mul (size_of_int t) chunkSize.

Definition chunk_end (n chunkSize t : Z) : Z :=
  Z.min (size_add (chunk_start chunkSize t) chunkSize) n.

(** Body of the phase-1 thread of chunk [t] (lines 51-61); the state is
    [(result, lastValues)]. *)
Definition scan_chunk (input : list Z) (n chunkSize : Z) (t : Z)
    (st : list Z * list Z) : outcome (list Z * list Z) :=
  let start := chunk_start chunkSize t in
  let end_ := chunk_end n chunkSize t in
  if n <=? start then Done st
  else
    result ← inclusive_scan input start end_ st.1 start;
    v ← vector_read result (size_sub end_ 1);
    lastValues ← vector_write st.2 t v;
    Done (result, lastValues).

(** Body of the phase-3 thread of chunk [t] (lines 74-84). *)
Definition add_offset (prefixSums : list Z) (n chunkSize : Z) (t : Z)
    (result : list Z) : outcome (list Z) :=
  let start := chunk_start chunkSize t in
  let end_ := chunk_end n chunkSize t in
  if n <=? start then Done result
  else
    offset ← vector_read prefixSums (t - 1);
    for_each (fun i r => x ← vector_read r i; vector_write r i (int_add x offset))
             (seqZ start (end_ - start)) result.

(** [threads.emplace_back(body)] for every [t] of [ts]; the bodies run in
    creation order. *)
Definition spawn_all {S : Type} (body : Z → S → outcome S) (ts : list Z) (s : S)
  : M S :=
  for_eachM (fun t s => emit (EvSpawn t);; lift (body t s)) ts s.

(** [for (auto& th : threads) th.join();] over [k] threads. *)
Definition join_all (k : Z) : M unit :=
  for_eachM (fun _ u => emit EvJoin) (seqZ 0 k) tt.

Definition phase1 (input : list Z) (n chunkSize numThreads : Z)
    (result : list Z) : M (list Z * list Z) :=
  let lastValues := vector_new numThreads in
  st ← spawn_all (scan_chunk input n chunkSize) (seqZ 0 numThreads)
                 (result, lastValues);
  join_all numThreads;;
  mret st.

Definition phase2 (lastValues : list Z) (numThreads : Z) : outcome (list Z) :=
  inclusive_scan lastValues 0 numThreads (vector_new numThreads) 0.

Definition phase3 (prefixSums : list Z) (n chunkSize numThreads : Z)
    (result : list Z) : M (list Z) :=
  result' ← spawn_all (add_offset prefixSums n chunkSize)
                      (seqZ 1 (numThreads - 1)) result;
  join_all (numThreads - 1);;
  mret result'.

Definition parallelInclusiveScan (input : list Z) (numThreads : Z) : M (list Z) :=
  let n := vector_size input in
  let result := vector_new n in
  if (numThreads <=? 1) || (n <? 1000) then
    lift (inclusive_scan input 0 n result 0)
  else
    chunkSize ← size_div (size_sub (size_add n (size_of_int numThreads)) 1)
                         (size_of_int numThreads);
    st ← phase1 input n chunkSize numThreads result;
    prefixSums ← lift (phase2 st.2 numThreads);
    phase3 prefixSums n chunkSize numThreads st.1.

End ParallelInclusiveScan.

(** ** [generateRandomData] *)

Section DataGenerator.
Local Open Scope Z_scope.

(** The random engine and the distribution come from <random>.  [engine]
    is the state of [std::mt19937], [mt19937 s] the engine seeded with the
    value [s] that [std::random_device] returned, and
    [uniform_int_distribution a b g] the value that
    [std::uniform_int_distribution<int> dis(a, b); dis(g)] draws together
    with the advanced engine. *)
Variable engine : Type.
Variable mt19937 : Z → engine.
Variable uniform_int_distribution : Z → Z → engine → Z * engine.

(** One iteration of the fill loop: [data[i] = dis(gen);]. *)
Definition fill_step (i : Z) (st : list Z * engine) : outcome (list Z * engine) :=
  let draw := uniform_int_distribution 1 100 st.2 in
  data ← vector_write st.1 i draw.1;
  Done (data, draw.2).

Definition generateRandomData (size : Z) (rd : Z) : outcome (list Z) :=
  let gen := mt19937 rd in
  let data := vector_new size in
  st ← for_each fill_step (seqZ 0 size) (data, gen);
  Done st.1.

End DataGenerator.

(** The sizes [main] benchmarks (line 204). *)
Definition benchmark_sizes : list Z := [100000; 1000000; 10000000]%Z.

(** ** The sweep driver, [experiment3] *)

Section SweepDriver.
Local Open Scope Z_scope.

(** [double] values are kept abstract: [time] with the comparison [<] of
    the source and the constant [numeric_limits<double>::max()].  The clock
    is an oracle: [elapsed i] is what the [i]-th call of [measureTime] in
    one run of [experiment3] returns ([i = 0] for the baseline, [i = k] for
    the sweep iteration of [k] threads). *)
Variable time : Type.
Variable time_lt : time → time → bool.
Variable dbl_max : time.
Variable elapsed : Z → time.

(** [measureTime(func)]: runs [func] once and returns the elapsed time. *)
Definition measureTime {A : Type} (i : Z) (func : M A) : M time :=
  func;; mret (elapsed i).

(** [min(32, (int)hwThreads * 4)]. *)
Definition maxK_of (hwThreads : Z) : Z :=
  Z.min 32 (int_mul (int_of_uint hwThreads) 4).

Record sweep : Type := mkSweep {
  results : list (Z * time);
  bestTime : time;
  bestK : Z
}.

(** Body of the loop over [k] (lines 157-172), without the report line. *)
Definition sweep_step (data : list Z) (k : Z) (s : sweep) : M sweep :=
  t ← measureTime k (parallelInclusiveScan data k);
  let results' := results s ++ [(k, t)] in
  if time_lt t (bestTime s)
  then mret (mkSweep results' t k)
  else mret (mkSweep results' (bestTime s) (bestK s)).

Record report : Type := mkReport {
  rep_maxK : Z;
  rep_baseTime : time;
  rep_results : list (Z * time);
  rep_bestK : Z;
  rep_bestTime : time;
  rep_overhead_note : bool   (* [bestK < maxK / 2] *)
}.

(** [experiment3(data)] on a platform whose [hardware_concurrency()] is
    [hwThreads]; the values the function prints are returned in a
    [report]. *)
Definition experiment3 (hwThreads : Z) (data : list Z) : M report :=
  let maxK := maxK_of hwThreads in
  baseTime ← measureTime 0 (lift (sequential_scan data));
  s ← for_eachM (sweep_step data) (seqZ 1 maxK) (mkSweep [] dbl_max 1);
  mret (mkReport maxK baseTime (results s) (bestK s) (bestTime s)
                 (bestK s <? Z.quot maxK 2)).

End SweepDriver.

Arguments mkSweep {time} results bestTime bestK.
Arguments results {time} s.
Arguments bestTime {time} s.
Arguments bestK {time} s.
Arguments mkReport {time} rep_maxK rep_baseTime rep_results rep_bestK rep_bestTime
  rep_overhead_note.
Arguments rep_maxK {time} r.
Arguments rep_baseTime {time} r.
Arguments rep_results {time} r.
Arguments rep_bestK {time} r.
Arguments rep_bestTime {time} r.
Arguments rep_overhead_note {time} r.

(** ** Reference functions, predicates of the specification, sample data *)

Section Reference.
Local Open Scope Z_scope.

(** The running sums of [l] continued from [init]. *)
Fixpoint scan_from (init : Z) (l : list Z) : list Z :=
  match l with
  | [] => []
  | x :: l' => int_add init x :: scan_from (int_add init x) l'
  end.

(** The inclusive scan of a list, as a list function. *)
Definition scan_list (l : list Z) : list Z :=
  match l with
  | [] => []
  | x :: l' => x :: scan_from x l'
  end.

(** [l_0 + l_1 + ... ] in [int] arithmetic, from the left; [0] for the
    empty list. *)
Definition total (l : list Z) : Z :=
  match l with
  | [] => 0
  | x :: l' => foldl int_add x l'
  end.

(** [l_0 + l_1 + ... ] in the integers. *)
Definition sumZ (l : list Z) : Z := foldr Z.add 0 l.

(** The value of [chunkSize] (line 46) for a non-zero thread count. *)
Definition chunk_size (n numThreads : Z) : Z :=
  size_sub (size_add n (size_of_int numThreads)) 1 / size_of_int numThreads.

(** The elements of chunk [k] for chunks of [c] elements. *)
Definition chunk (input : list Z) (c k : nat) : list Z :=
  take c (drop (k * c) input).

(** The half-open index range [[lo, hi)] of chunk [t] in the integers. *)
Definition in_chunk (n chunkSize t i : Z) : Prop :=
  chunk_start chunkSize t <= i < chunk_end n chunkSize t.

(** [out[i] <= out[i+1]] for every valid [i]. *)
Definition nondecreasing (out : list Z) : Prop :=
  ∀ (i : nat) x y, out !! i = Some x → out !! S i = Some y → x <= y.

(** [out[0] = input[0]] and [out[i+1] - out[i] = input[i+1]] for every
    valid [i], the subtraction taken in the integers. *)
Definition differences_match (input out : list Z) : Prop :=
  out !! 0%nat = input !! 0%nat
  ∧ ∀ (i : nat) x y z,
      out !! i = Some x → out !! S i = Some y → input !! S i = Some z →
      y - x = z.

(** A vector of 1003 elements, long enough for the parallel path. *)
Definition sample_input : list Z :=
  (fun i => Z.of_nat i mod 7 + 1) <$> seq 0 1003.

(** A linear congruential engine and a distribution over it, an instance
    of the interface of <random> that [generateRandomData] uses. *)
Definition lcg_seed (rd : Z) : Z := rd mod 2 ^ 31.
Definition lcg_distribution (a b : Z) (g : Z) : Z * Z :=
  (a + g mod (b - a + 1), (g * 1103515245 + 12345) mod 2 ^ 31).

(** A clock for the sweep: times are integers, the sentinel is [2^1024],
    and the [k]-th measurement is smallest at [k = 4] and [k = 5]. *)
Definition sample_dbl_max : Z := 2 ^ 1024.
Definition sample_elapsed (k : Z) : Z := 50 + (k - 4) * (k - 5).

(** The events of one run of the parallel path of
    [parallelInclusiveScan] on [n] elements. *)
Definition parallel_trace (n numThreads : Z) : list event :=
  EvDivide (n + numThreads - 1) numThreads
  :: (EvSpawn <$> seqZ 0 numThreads) ++ replicate (Z.to_nat numThreads) EvJoin
  ++ (EvSpawn <$> seqZ 1 (numThreads - 1))
  ++ replicate (Z.to_nat (numThreads - 1)) EvJoin.

End Reference.

(** The first [k] draws of the data generator from the engine [g], and
    the engine they leave. *)
Section PureDraws.
Variable engine : Type.
Variable uniform_int_distribution : Z → Z → engine → Z * engine.

Fixpoint draws (k : nat) (g : engine) : list Z * engine :=
  match k with
  | O => ([], g)
  | S k' =>
      let d := draws k' g in
      let x := uniform_int_distribution 1%Z 100%Z d.2 in
      (d.1 ++ [x.1], x.2)
  end.

End PureDraws.

(** The sweep loop without the scans it measures. *)
Section PureSweep.
Variable time : Type.
Variable time_lt : time → time → bool.
Variable elapsed : Z → time.

Definition sweep_pure (s : sweep time) (k : Z) : sweep time :=
  let t := elapsed k in
  let results' := results s ++ [(k, t)] in
  if time_lt t (bestTime s)
  then mkSweep results' t k
  else mkSweep results' (bestTime s) (bestK s).

End PureSweep.

(** The effect of the thread bodies as list functions; [ThreadBodies]
    below proves that the bodies compute them. *)

Section PureThreads.

Variable input : list Z.
Variable c : nat.

(** The result vector once the phase-1 thread of chunk [k] has run. *)
Definition scanned_chunk (k : nat) (result : list Z) : list Z :=
  take (k * c) result ++ scan_list (chunk input c k)
    ++ drop (k * c + length (chunk input c k)) result.

Definition scan_chunk_pure (st : list Z * list Z) (k : nat) : list Z * list Z :=
  if decide (length input ≤ k * c)
  then st
  else (scanned_chunk k st.1, <[k := total (chunk input c k)]> st.2).

(** The result vector once the phase-3 thread of chunk [k] has run. *)
Definition shifted_chunk (prefixSums : list Z) (result : list Z) (k : nat) : list Z :=
  if decide (length input ≤ k * c)
  then result
  else
    take (k * c) result
      ++ map (fun x => int_add x (default 0%Z (prefixSums !! (k - 1))))
             (take (length (chunk input c k)) (drop (k * c) result))
      ++ drop (k * c + length (chunk input c k)) result.

(** The state [(result, lastValues)] after the phase-1 threads of [T]
    chunks have run in the order [ks1], and the result vector after the
    phase-3 threads have then run in the order [ks3]. *)
Definition phase1_state (T : nat) (ks1 : list nat) : list Z * list Z :=
  foldl scan_chunk_pure
        (replicate (length input) 0%Z, replicate T 0%Z) ks1.

Definition scheduled_result (T : nat) (ks1 ks3 : list nat) : list Z :=
  foldl (shifted_chunk (scan_list (phase1_state T ks1).2))
        (phase1_state T ks1).1 ks3.

(** The same for the order in which the source creates the threads. *)
Definition after_phase1 (T : nat) : list Z * list Z :=
  phase1_state T (seq 0 T).

Definition carry_prefix (T : nat) : list Z := scan_list (after_phase1 T).2.

Definition after_phase3 (T : nat) : list Z :=
  scheduled_result T (seq 0 T) (seq 1 (T - 1)).

End PureThreads.

(** ** Predicates and counters for the further properties *)

Section FurtherDefinitions.
Local Open Scope Z_scope.

(** [out[i] < out[i+1]] for every valid [i]. *)
Definition strictly_increasing (out : list Z) : Prop :=
  ∀ (i : nat) x y, out !! i = Some x → out !! S i = Some y → x < y.

Definition is_spawn (e : event) : bool :=
  match e with EvSpawn _ => true | _ => false end.

Definition is_join (e : event) : bool :=
  match e with EvJoin => true | _ => false end.

Definition is_divide (e : event) : bool :=
  match e with EvDivide _ _ => true | _ => false end.

(** The number of events of a trace that satisfy [p]. *)
Fixpoint count_events (p : event → bool) (tr : list event) : nat :=
  match tr with
  | [] => 0%nat
  | e :: tr' => ((if p e then 1 else 0) + count_events p tr')%nat
  end.

(** The differences of adjacent elements in [int] arithmetic, the first
    element kept (what [std::adjacent_difference] computes). *)
Fixpoint differences_from (prev : Z) (l : list Z) : list Z :=
  match l with
  | [] => []
  | y :: l' => int_sub y prev :: differences_from y l'
  end.

Definition int_differences (l : list Z) : list Z :=
  match l with
  | [] => []
  | x :: l' => x :: differences_from x l'
  end.

(** The number of chunks of [chunkSize] elements that hold at least one
    of [n] elements. *)
Definition working_threads (n chunkSize : Z) : Z :=
  (n + chunkSize - 1) / chunkSize.

(** The largest size for which a vector of elements of at most 100 cannot
    overflow an [int] sum: [INT_MAX / 100]. *)
Definition max_safe_size : Z := 21474836.

End FurtherDefinitions.

(** * Properties *)

(** ** Machine arithmetic *)

Section MachineIntFacts.
Local Open Scope Z_scope.

Lemma wrap_int_in_int z : in_int (wrap_int z).
Proof.
  unfold in_int, wrap_int, int_min, int_max.
  pose proof (Z.mod_pos_bound (z + 2 ^ 31) (2 ^ 32)). lia.
Qed.

Lemma wrap_int_id z : in_int z → wrap_int z = z.
Proof.
  unfold in_int, wrap_int, int_min, int_max. intros Hz.
  rewrite Z.mod_small; lia.
Qed.

Lemma wrap_int_add_l a b : wrap_int (wrap_int a + b) = wrap_int (a + b).
Proof.
  unfold wrap_int.
  replace ((a + 2 ^ 31) mod 2 ^ 32 - 2 ^ 31 + b + 2 ^ 31)
    with ((a + 2 ^ 31) mod 2 ^ 32 + b) by lia.
  rewrite Z.add_mod_idemp_l by lia.
  do 2 f_equal. lia.
Qed.

Lemma wrap_int_add_r a b : wrap_int (a + wrap_int b) = wrap_int (a + b).
Proof. rewrite (Z.add_comm a), wrap_int_add_l. f_equal. lia. Qed.

Lemma int_add_comm a b : int_add a b = int_add b a.
Proof. unfold int_add. f_equal. lia. Qed.

Lemma int_add_assoc a b c : int_add (int_add a b) c = int_add a (int_add b c).
Proof.
  unfold int_add. rewrite wrap_int_add_l, wrap_int_add_r. f_equal. lia.
Qed.

Lemma int_add_exact a b : in_int (a + b) → int_add a b = a + b.
Proof. apply wrap_int_id. Qed.

Lemma int_sub_add a b : in_int b → int_sub (int_add a b) a = b.
Proof.
  intros Hb. unfold int_sub, int_add.
  replace (wrap_int (a + b) - a) with (wrap_int (a + b) + - a) by lia.
  rewrite wrap_int_add_l. rewrite <- (wrap_int_id b) at 2 by done.
  f_equal. lia.
Qed.

Lemma wrap_size_nonneg z : 0 <= wrap_size z.
Proof.
  unfold wrap_size, size_modulus.
  pose proof (Z.mod_pos_bound z (2 ^ 64)). lia.
Qed.

Lemma wrap_size_id z : 0 <= z < size_modulus → wrap_size z = z.
Proof. intros. unfold wrap_size. by apply Z.mod_small. Qed.

End MachineIntFacts.

(** ** The inclusive scan as a list function *)

Section ScanListFacts.
Local Open Scope Z_scope.

Lemma length_scan_from a l : length (scan_from a l) = length l.
Proof. revert a. induction l as [|x l IH]; intros a; simpl; [done|]. by rewrite IH. Qed.

Lemma length_scan_list l : length (scan_list l) = length l.
Proof. destruct l; simpl; [done|]. by rewrite length_scan_from. Qed.

Lemma scan_from_shift a x l :
  scan_from (int_add a x) l = map (int_add a) (scan_from x l).
Proof.
  revert x. induction l as [|y l IH]; intros x; simpl; [done|].
  rewrite int_add_assoc. f_equal. apply IH.
Qed.

Lemma scan_from_scan_list a l : scan_from a l = map (int_add a) (scan_list l).
Proof. destruct l as [|x l]; simpl; [done|]. f_equal. apply scan_from_shift. Qed.

Lemma scan_from_app a l1 l2 :
  scan_from a (l1 ++ l2) = scan_from a l1 ++ scan_from (foldl int_add a l1) l2.
Proof.
  revert a. induction l1 as [|x l1 IH]; intros a; simpl; [done|].
  f_equal. apply IH.
Qed.

Lemma scan_list_app l1 l2 :
  l1 ≠ [] →
  scan_list (l1 ++ l2) = scan_list l1 ++ map (int_add (total l1)) (scan_list l2).
Proof.
  destruct l1 as [|x l1]; [done|]. intros _. simpl.
  f_equal. rewrite scan_from_app. f_equal. apply scan_from_scan_list.
Qed.

Lemma total_app l1 l2 :
  l1 ≠ [] → l2 ≠ [] → total (l1 ++ l2) = int_add (total l1) (total l2).
Proof.
  destruct l1 as [|x l1]; [done|]. destruct l2 as [|y l2]; [done|].
  intros _ _. simpl. rewrite foldl_app. simpl.
  generalize (foldl int_add x l1). intros a.
  revert y. induction l2 as [|z l2 IH]; intros y; simpl; [done|].
  rewrite int_add_assoc. apply IH.
Qed.

Lemma lookup_scan_from a l (i : nat) :
  (i < length l)%nat →
  scan_from a l !! i = Some (foldl int_add a (take (S i) l)).
Proof.
  revert a i. induction l as [|x l IH]; intros a i Hi; simpl in Hi; [lia|].
  destruct i as [|i]; simpl.
  - by destruct l.
  - apply IH. lia.
Qed.

Lemma lookup_scan_list l (i : nat) :
  (i < length l)%nat → scan_list l !! i = Some (total (take (S i) l)).
Proof.
  destruct l as [|x l]; simpl; intros Hi; [lia|].
  destruct i as [|i]; simpl.
  - by destruct l.
  - apply lookup_scan_from. lia.
Qed.

Lemma scan_list_take l k : scan_list (take k l) = take k (scan_list l).
Proof.
  destruct l as [|x l]; [by destruct k|]. destruct k as [|k]; [done|].
  simpl. f_equal. revert x k. induction l as [|y l IH]; intros x k.
  - by destruct k.
  - destruct k as [|k]; [done|]. simpl. f_equal. apply IH.
Qed.

End ScanListFacts.

(** ** The library functions on vectors *)

Section LibraryFacts.
Local Open Scope Z_scope.

Lemma length_vector_new n : length (vector_new n) = Z.to_nat n.
Proof. apply length_replicate. Qed.

Lemma vector_new_of_nat (k : nat) : vector_new (Z.of_nat k) = replicate k 0.
Proof. unfold vector_new. by rewrite Nat2Z.id. Qed.

Lemma vector_write_Done v (k : nat) x :
  (k < length v)%nat → vector_write v (Z.of_nat k) x = Done (<[k := x]> v).
Proof.
  intros Hk. unfold vector_write, vector_size.
  rewrite Nat2Z.id.
  destruct (Z.leb_spec 0 (Z.of_nat k)); [|lia].
  destruct (Z.ltb_spec (Z.of_nat k) (Z.of_nat (length v))); [done|lia].
Qed.

Lemma vector_read_Done v (k : nat) x :
  v !! k = Some x → vector_read v (Z.of_nat k) = Done x.
Proof.
  intros Hx. pose proof (lookup_lt_Some _ _ _ Hx) as Hk.
  unfold vector_read, vector_size.
  rewrite Nat2Z.id, Hx.
  destruct (Z.leb_spec 0 (Z.of_nat k)); [|lia].
  destruct (Z.ltb_spec (Z.of_nat k) (Z.of_nat (length v))); [done|lia].
Qed.

Lemma vector_range_Done v (a b : nat) :
  (a ≤ b ≤ length v)%nat →
  vector_range v (Z.of_nat a) (Z.of_nat b) = Done (take (b - a) (drop a v)).
Proof.
  intros Hab. unfold vector_range, vector_size.
  destruct (Z.leb_spec 0 (Z.of_nat a)); [|lia].
  destruct (Z.leb_spec (Z.of_nat a) (Z.of_nat b)); [|lia].
  destruct (Z.leb_spec (Z.of_nat b) (Z.of_nat (length v))); [|lia].
  simpl. rewrite Nat2Z.id. do 2 f_equal. lia.
Qed.

Lemma scan_loop_Done src init dst (p : nat) :
  (p + length src ≤ length dst)%nat →
  scan_loop src init dst (Z.of_nat p)
  = Done (take p dst ++ scan_from init src ++ drop (p + length src) dst).
Proof.
  revert init dst p. induction src as [|x src IH]; intros init dst p Hlen.
  - simpl. by rewrite Nat.add_0_r, take_drop.
  - simpl in Hlen. simpl scan_loop.
    rewrite vector_write_Done by lia. simpl.
    replace (Z.of_nat p + 1) with (Z.of_nat (S p)) by lia.
    rewrite IH by (rewrite length_insert; lia).
    destruct (lookup_lt_is_Some_2 dst p) as [y Hy]; [lia|].
    rewrite (take_S_r _ _ (int_add init x)) by (apply list_lookup_insert_eq; lia).
    rewrite take_insert_ge by lia.
    rewrite drop_insert_lt by lia.
    rewrite <- app_assoc. simpl.
    by replace (p + S (length src))%nat with (S (p + length src)) by lia.
Qed.

Lemma inclusive_scan_Done v (a b : nat) dst (p : nat) :
  (a ≤ b ≤ length v)%nat →
  (p + (b - a) ≤ length dst)%nat →
  inclusive_scan v (Z.of_nat a) (Z.of_nat b) dst (Z.of_nat p)
  = Done (take p dst ++ scan_list (take (b - a) (drop a v))
            ++ drop (p + (b - a)) dst).
Proof.
  intros Hab Hp. unfold inclusive_scan.
  rewrite vector_range_Done by done. simpl.
  assert (Hlen : length (take (b - a) (drop a v)) = (b - a)%nat).
  { rewrite length_take, length_drop. lia. }
  destruct (take (b - a) (drop a v)) as [|x src] eqn:Hsrc.
  - simpl in Hlen. rewrite <- Hlen. simpl. by rewrite Nat.add_0_r, take_drop.
  - simpl in Hlen. rewrite vector_write_Done by lia. simpl.
    replace (Z.of_nat p + 1) with (Z.of_nat (S p)) by lia.
    rewrite scan_loop_Done by (rewrite length_insert; lia).
    rewrite (take_S_r _ _ x) by (apply list_lookup_insert_eq; lia).
    rewrite take_insert_ge by lia.
    rewrite drop_insert_lt by lia.
    rewrite <- app_assoc. simpl.
    by replace (p + (b - a))%nat with (S (p + length src)) by lia.
Qed.

(** The baseline computes the inclusive scan of its input, for every
    input. *)
Lemma sequential_scan_Done input : sequential_scan input = Done (scan_list input).
Proof.
  unfold sequential_scan, vector_size.
  rewrite vector_new_of_nat.
  rewrite (inclusive_scan_Done input 0 (length input) _ 0)
    by (rewrite ?length_replicate; lia).
  rewrite Nat.sub_0_r, drop_0, firstn_all. simpl.
  rewrite drop_ge by (by rewrite length_replicate).
  by rewrite app_nil_r.
Qed.

(** Phase 2 computes the inclusive scan of the carry list. *)
Lemma phase2_Done lastValues (T : nat) :
  length lastValues = T →
  phase2 lastValues (Z.of_nat T) = Done (scan_list lastValues).
Proof.
  intros Hlv. unfold phase2. rewrite vector_new_of_nat.
  rewrite (inclusive_scan_Done _ 0 T _ 0)
    by (rewrite ?length_replicate; lia).
  rewrite Nat.sub_0_r, drop_0. simpl.
  rewrite take_ge by lia.
  rewrite drop_ge by (by rewrite length_replicate).
  by rewrite app_nil_r.
Qed.

End LibraryFacts.

(** ** Loops, thread creation and joins *)

Section LoopFacts.
Local Open Scope Z_scope.

Lemma result_of_bind {A B : Type} (m : M A) (f : A → M B) :
  result_of (m ≫= f)
  = match result_of m with
    | Done a => result_of (f a)
    | Undefined u => Undefined u
    end.
Proof. unfold mbind, M_bind. by destruct (result_of m). Qed.

Lemma M_bind_Done {A B : Type} (m : M A) (f : A → M B) tr a tr' b :
  m = mkM tr (Done a) → f a = mkM tr' (Done b) →
  m ≫= f = mkM (tr ++ tr') (Done b).
Proof. intros -> Hf. unfold mbind, M_bind. simpl. by rewrite Hf. Qed.

Lemma size_div_Done a b :
  b ≠ 0 → size_div a b = mkM [EvDivide a b] (Done (a / b)).
Proof.
  intros Hb. unfold size_div.
  destruct (Z.eqb_spec b 0) as [|_]; [done|]. done.
Qed.

Lemma size_div_zero a : size_div a 0 = mkM [EvDivide a 0] (Undefined DivisionByZero).
Proof. done. Qed.

Lemma for_each_skip {S : Type} (body : Z → S → outcome S) xs s :
  (∀ x, x ∈ xs → body x s = Done s) → for_each body xs s = Done s.
Proof.
  induction xs as [|x xs IH]; intros Hbody; simpl; [done|].
  rewrite Hbody by apply list_elem_of_here. simpl.
  apply IH. intros y Hy. apply Hbody. by apply list_elem_of_further.
Qed.

Lemma for_each_app {S : Type} (body : Z → S → outcome S) xs ys s :
  for_each body (xs ++ ys) s = (s' ← for_each body xs s; for_each body ys s').
Proof.
  revert s. induction xs as [|x xs IH]; intros s; simpl; [done|].
  destruct (body x s) as [s'|u]; simpl; [apply IH|done].
Qed.

Lemma spawn_all_cons {S : Type} (body : Z → S → outcome S) t ts s :
  spawn_all body (t :: ts) s
  = match body t s with
    | Done s' => mkM (EvSpawn t :: trace (spawn_all body ts s'))
                     (result_of (spawn_all body ts s'))
    | Undefined u => mkM [EvSpawn t] (Undefined u)
    end.
Proof. unfold spawn_all. simpl. by destruct (body t s). Qed.

Lemma spawn_all_result {S : Type} (body : Z → S → outcome S) ts s :
  result_of (spawn_all body ts s) = for_each body ts s.
Proof.
  revert s. induction ts as [|t ts IH]; intros s; [done|].
  rewrite spawn_all_cons. simpl.
  destruct (body t s) as [s'|u]; simpl; [apply IH|done].
Qed.

Lemma spawn_all_Done {S : Type} (body : Z → S → outcome S) ts s s' :
  for_each body ts s = Done s' →
  spawn_all body ts s = mkM (EvSpawn <$> ts) (Done s').
Proof.
  revert s. induction ts as [|t ts IH]; intros s.
  - simpl. by intros [= ->].
  - rewrite spawn_all_cons. simpl.
    destruct (body t s) as [s1|u]; simpl; [|done].
    intros Hs. by rewrite (IH _ Hs).
Qed.

Lemma join_all_eq k : join_all k = mkM (replicate (Z.to_nat k) EvJoin) (Done tt).
Proof.
  unfold join_all. rewrite <- (length_seqZ 0 k).
  generalize (seqZ 0 k) as xs. intros xs.
  induction xs as [|x xs IH]; [done|].
  simpl. unfold mbind, M_bind. simpl. by rewrite IH.
Qed.

End LoopFacts.

Section AddLoop.
Local Open Scope Z_scope.

Lemma add_loop_Done offset result (s len : nat) :
  (s + len ≤ length result)%nat →
  for_each (fun i r => x ← vector_read r i; vector_write r i (int_add x offset))
           (seqZ (Z.of_nat s) (Z.of_nat len)) result
  = Done (take s result
            ++ map (fun x => int_add x offset) (take len (drop s result))
            ++ drop (s + len) result).
Proof.
  revert s result. induction len as [|len IH]; intros s result Hlen.
  - rewrite seqZ_nil by lia. simpl. by rewrite Nat.add_0_r, take_drop.
  - rewrite seqZ_cons by lia. cbn [for_each].
    destruct (lookup_lt_is_Some_2 result s) as [x Hx]; [lia|].
    rewrite (vector_read_Done _ _ _ Hx). simpl.
    rewrite vector_write_Done by lia. simpl.
    replace (Z.succ (Z.of_nat s)) with (Z.of_nat (S s)) by lia.
    replace (Z.pred (Z.of_nat (S len))) with (Z.of_nat len) by lia.
    rewrite IH by (rewrite length_insert; lia).
    rewrite (take_S_r _ _ (int_add x offset)) by (apply list_lookup_insert_eq; lia).
    rewrite take_insert_ge by lia.
    rewrite !drop_insert_lt by lia.
    rewrite (drop_S _ _ _ Hx). simpl.
    rewrite <- app_assoc. simpl.
    by replace (s + S len)%nat with (S s + len)%nat by lia.
Qed.

End AddLoop.

(** ** Chunk boundaries *)

Section ChunkArithmetic.
Local Open Scope Z_scope.

(** [numThreads] is an [int], the input a vector: the [size_t] arithmetic
    of line 46 does not wrap, and [chunkSize] is [ceil(n / numThreads)]. *)
Lemma chunk_size_no_wrap n T :
  0 <= n <= vector_max_size → 1 <= T <= int_max →
  chunk_size n T = (n + T - 1) / T.
Proof.
  unfold vector_max_size, int_max. intros Hn HT.
  unfold chunk_size, size_sub, size_add, size_of_int.
  assert (Hmax : (2 ^ 63 - 1) / 4 < 2 ^ 62) by (apply Z.div_lt_upper_bound; lia).
  rewrite (wrap_size_id T) by (unfold size_modulus; lia).
  rewrite (wrap_size_id (n + T)) by (unfold size_modulus; lia).
  rewrite wrap_size_id by (unfold size_modulus; lia).
  done.
Qed.

Lemma ceil_div_bounds n T :
  0 <= n → 1 <= T →
  n <= T * ((n + T - 1) / T) < n + T.
Proof.
  intros Hn HT.
  pose proof (Z.div_mod (n + T - 1) T ltac:(lia)) as Hdm.
  pose proof (Z.mod_pos_bound (n + T - 1) T ltac:(lia)) as Hmod.
  lia.
Qed.

Lemma ceil_div_pos n T : 1 <= n → 1 <= T → 1 <= (n + T - 1) / T.
Proof.
  intros Hn HT. apply Z.div_le_lower_bound; lia.
Qed.

Lemma chunk_size_bound n T :
  0 <= n <= vector_max_size → 1 <= T <= int_max →
  T * ((n + T - 1) / T) < size_modulus.
Proof.
  intros Hn HT. pose proof (ceil_div_bounds n T ltac:(lia) ltac:(lia)) as Hc.
  unfold vector_max_size, int_max in *.
  assert (Hmax : (2 ^ 63 - 1) / 4 < 2 ^ 62) by (apply Z.div_lt_upper_bound; lia).
  unfold size_modulus. lia.
Qed.

Section FixedChunkSize.
(** Chunks of [cs] elements for [T] threads, where [T * cs] is
    representable as a [size_t]. *)
Variables cs T : Z.
Hypothesis Hcs : 0 <= cs.
Hypothesis HTcs : T * cs < size_modulus.

Lemma chunk_start_no_wrap t : 0 <= t < T → chunk_start cs t = t * cs.
Proof using Hcs HTcs.
  intros Ht. unfold chunk_start, size_mul, size_of_int.
  assert (0 <= t * cs <= T * cs) by nia.
  destruct (Z.eq_dec cs 0) as [->|Hne].
  - unfold wrap_size. rewrite !Z.mul_0_r. done.
  - assert (t < size_modulus) by nia.
    rewrite (wrap_size_id t) by lia. apply wrap_size_id. lia.
Qed.

Lemma chunk_end_no_wrap n t :
  0 <= t < T → chunk_end n cs t = Z.min (t * cs + cs) n.
Proof using Hcs HTcs.
  intros Ht. unfold chunk_end, size_add.
  rewrite chunk_start_no_wrap by done.
  rewrite wrap_size_id by nia. done.
Qed.

End FixedChunkSize.

End ChunkArithmetic.

(** ** Chunks of a list and the effect of the thread bodies *)

Section ChunkLists.

Variable input : list Z.
Variable c : nat.

Lemma length_chunk k : length (chunk input c k) = (c `min` (length input - k * c)).
Proof. unfold chunk. by rewrite length_take, length_drop. Qed.

Lemma chunk_nil k : (length input ≤ k * c) → chunk input c k = [].
Proof. intros Hk. apply length_zero_iff_nil. rewrite length_chunk. lia. Qed.

Lemma chunk_range k :
  take ((k * c + c) `min` length input - k * c) (drop (k * c) input)
  = chunk input c k.
Proof.
  unfold chunk.
  destruct (Nat.le_gt_cases (k * c + c) (length input)) as [Hle|Hgt].
  - f_equal. lia.
  - rewrite !take_ge; [done| |]; rewrite length_drop; lia.
Qed.

Lemma length_scanned_chunk k result :
  length result = length input →
  length (scanned_chunk input c k result) = length input.
Proof.
  intros Hres. unfold scanned_chunk.
  rewrite !length_app, length_take, length_scan_list, length_drop, length_chunk.
  lia.
Qed.

Lemma lookup_scanned_chunk k result (i : nat) :
  length result = length input → (k * c < length input) →
  scanned_chunk input c k result !! i
  = if decide (k * c ≤ i < k * c + length (chunk input c k))
    then scan_list (chunk input c k) !! (i - k * c)
    else result !! i.
Proof.
  intros Hres Hk. unfold scanned_chunk.
  pose proof (length_chunk k) as Hlen.
  assert (Htake : length (take (k * c) result) = (k * c))
    by (rewrite length_take; lia).
  case_decide as Hi.
  - rewrite lookup_app_r by lia. rewrite Htake.
    rewrite lookup_app_l by (rewrite length_scan_list; lia). done.
  - destruct (Nat.lt_ge_cases i (k * c)) as [Hlt|Hge].
    + rewrite lookup_app_l by lia. by rewrite lookup_take_lt.
    + rewrite lookup_app_r by lia. rewrite Htake.
      rewrite lookup_app_r by (rewrite length_scan_list; lia).
      rewrite length_scan_list, lookup_drop. f_equal. lia.
Qed.

Lemma chunk_index_disjoint (k k' m : nat) :
  k ≠ k' → (m < length (chunk input c k)) →
  ¬ (k' * c ≤ k * c + m < k' * c + length (chunk input c k')).
Proof.
  intros Hne Hm. pose proof (length_chunk k). pose proof (length_chunk k').
  destruct (Nat.lt_ge_cases k k') as [Hlt|Hge].
  - assert (k * c + c ≤ k' * c) by nia. lia.
  - assert (k' * c + c ≤ k * c) by nia. lia.
Qed.

Lemma scan_chunk_pure_length st k :
  length st.1 = length input →
  length (scan_chunk_pure input c st k).1 = length input
  ∧ length (scan_chunk_pure input c st k).2 = length st.2.
Proof.
  intros Hres. unfold scan_chunk_pure. case_decide; simpl; [done|].
  by rewrite length_scanned_chunk, length_insert.
Qed.

Lemma phase1_pure_length ks st :
  length st.1 = length input →
  length (foldl (scan_chunk_pure input c) st ks).1 = length input
  ∧ length (foldl (scan_chunk_pure input c) st ks).2 = length st.2.
Proof.
  revert st. induction ks as [|k ks IH]; intros st Hres; simpl; [done|].
  destruct (scan_chunk_pure_length st k Hres) as [H1 H2].
  destruct (IH _ H1) as [H3 H4]. split; [done|congruence].
Qed.

(** After the phase-1 threads [ks] have run, in this order, the elements
    of the chunks in [ks] are the local scans and every other element is
    untouched. *)
Lemma phase1_pure_result ks st (k m : nat) :
  length st.1 = length input →
  (m < length (chunk input c k)) →
  (foldl (scan_chunk_pure input c) st ks).1 !! (k * c + m)
  = if decide (k ∈ ks) then scan_list (chunk input c k) !! m
    else st.1 !! (k * c + m).
Proof.
  revert st. induction ks as [|k0 ks IH]; intros st Hres Hm.
  { cbn [foldl]. rewrite decide_False; [done|]. apply not_elem_of_nil. }
  cbn [foldl].
  destruct (scan_chunk_pure_length st k0 Hres) as [H1 _].
  rewrite IH by done.
  pose proof (length_chunk k) as Hlen.
  destruct (decide (k ∈ ks)) as [Hin|Hnotin].
  { rewrite decide_True; [done|]. by apply list_elem_of_further. }
  unfold scan_chunk_pure. case_decide as Hk0; simpl.
  - rewrite decide_False; [done|].
    intros [->|?]%elem_of_cons; [lia|done].
  - rewrite lookup_scanned_chunk by (done || lia).
    destruct (decide (k = k0)) as [->|Hne].
    + rewrite decide_True by lia. rewrite decide_True by apply list_elem_of_here.
      f_equal. lia.
    + rewrite decide_False by (by apply chunk_index_disjoint).
      rewrite decide_False; [done|].
      intros [?|?]%elem_of_cons; done.
Qed.

(** The carry slot of chunk [k] holds the chunk total once the thread of
    a non-empty chunk [k] has run, and is untouched otherwise. *)
Lemma phase1_pure_carry ks st (k : nat) :
  length st.1 = length input →
  (k < length st.2) →
  (foldl (scan_chunk_pure input c) st ks).2 !! k
  = if decide (k ∈ ks ∧ k * c < length input)
    then Some (total (chunk input c k))
    else st.2 !! k.
Proof.
  revert st. induction ks as [|k0 ks IH]; intros st Hres Hk.
  { cbn [foldl]. rewrite decide_False; [done|]. intros [[]%not_elem_of_nil _]. }
  cbn [foldl].
  destruct (scan_chunk_pure_length st k0 Hres) as [H1 H2].
  rewrite IH by (done || lia).
  destruct (decide (k ∈ ks ∧ (k * c < length input))) as [[Hin Hlt]|Hnot].
  { rewrite decide_True; [done|]. split; [by apply list_elem_of_further|done]. }
  unfold scan_chunk_pure. case_decide as Hk0; simpl.
  - rewrite decide_False; [done|].
    intros [[->|?]%elem_of_cons ?]; [lia|tauto].
  - destruct (decide (k = k0)) as [->|Hne].
    + rewrite decide_True by (split; [apply list_elem_of_here|lia]).
      by rewrite list_lookup_insert_eq.
    + rewrite list_lookup_insert_ne by done.
      rewrite decide_False; [done|].
      intros [[?|?]%elem_of_cons ?]; [done|tauto].
Qed.

Lemma length_shifted_chunk prefixSums result k :
  length result = length input →
  length (shifted_chunk input c prefixSums result k) = length input.
Proof.
  intros Hres. unfold shifted_chunk. case_decide; [done|].
  rewrite !length_app, length_map, !length_take, !length_drop, length_chunk. lia.
Qed.

Lemma lookup_shifted_chunk prefixSums result k (i : nat) :
  length result = length input → (k * c < length input) →
  shifted_chunk input c prefixSums result k !! i
  = if decide (k * c ≤ i < k * c + length (chunk input c k))
    then (fun x => int_add x (default 0%Z (prefixSums !! (k - 1)))) <$> result !! i
    else result !! i.
Proof.
  intros Hres Hk. unfold shifted_chunk. rewrite decide_False by lia.
  pose proof (length_chunk k) as Hlen.
  assert (Htake : length (take (k * c) result) = (k * c))
    by (rewrite length_take; lia).
  case_decide as Hi.
  - rewrite lookup_app_r by lia. rewrite Htake.
    rewrite lookup_app_l
      by (rewrite length_map, length_take, length_drop; lia).
    rewrite list_lookup_fmap, lookup_take_lt, lookup_drop by lia.
    do 2 f_equal. lia.
  - destruct (Nat.lt_ge_cases i (k * c)) as [Hlt|Hge].
    + rewrite lookup_app_l by lia. by rewrite lookup_take_lt.
    + rewrite lookup_app_r by lia. rewrite Htake.
      rewrite lookup_app_r
        by (rewrite length_map, length_take, length_drop; lia).
      rewrite length_map, length_take, length_drop, lookup_drop. f_equal. lia.
Qed.

Lemma phase3_pure_length prefixSums ks result :
  length result = length input →
  length (foldl (shifted_chunk input c prefixSums) result ks) = length input.
Proof.
  revert result. induction ks as [|k ks IH]; intros result Hres; [done|].
  cbn [foldl]. apply IH. by apply length_shifted_chunk.
Qed.

(** After the phase-3 threads [ks] have run, in this order, every element
    of a chunk in [ks] has the chunk's offset added once, and every other
    element is untouched. *)
Lemma phase3_pure_result prefixSums ks result (k m : nat) :
  NoDup ks →
  length result = length input →
  (m < length (chunk input c k)) →
  foldl (shifted_chunk input c prefixSums) result ks !! (k * c + m)
  = if decide (k ∈ ks)
    then (fun x => int_add x (default 0%Z (prefixSums !! (k - 1))))
           <$> result !! (k * c + m)
    else result !! (k * c + m).
Proof.
  revert result. induction ks as [|k0 ks IH]; intros result Hnd Hres Hm.
  { cbn [foldl]. rewrite decide_False; [done|]. apply not_elem_of_nil. }
  cbn [foldl].
  pose proof (NoDup_cons_1_1 _ _ Hnd) as Hk0.
  pose proof (NoDup_cons_1_2 _ _ Hnd) as Hnd'.
  rewrite IH by (done || by apply length_shifted_chunk).
  pose proof (length_chunk k) as Hlen.
  destruct (decide (length input ≤ k0 * c)) as [Hempty|Hne0].
  { assert (Hs : shifted_chunk input c prefixSums result k0 = result)
      by (unfold shifted_chunk; by rewrite decide_True).
    rewrite !Hs.
    destruct (decide (k ∈ ks)) as [Hin|Hnotin].
    - rewrite decide_True; [done|]. by apply list_elem_of_further.
    - rewrite decide_False; [done|].
      intros [->|?]%elem_of_cons; [lia|done]. }
  rewrite !lookup_shifted_chunk by (done || lia).
  destruct (decide (k = k0)) as [->|Hne].
  - rewrite (decide_False (P := k0 ∈ ks)) by done.
    rewrite (decide_True (P := k0 ∈ k0 :: ks)) by apply list_elem_of_here.
    rewrite decide_True by lia. done.
  - pose proof (chunk_index_disjoint k k0 m Hne Hm) as Hdis.
    rewrite (decide_False (P := (k0 * c ≤ k * c + m < _))) by done.
    destruct (decide (k ∈ ks)) as [Hin|Hnotin].
    + rewrite decide_True; [done|]. by apply list_elem_of_further.
    + rewrite decide_False; [done|].
      intros [?|?]%elem_of_cons; done.
Qed.

Lemma take_chunk (k m : nat) :
  m ≤ c →
  take (k * c + m) input = take (k * c) input ++ take m (chunk input c k).
Proof.
  intros Hm. unfold chunk. rewrite take_take, Nat.min_l by done.
  rewrite <- (take_drop (k * c) input) at 1.
  destruct (Nat.le_gt_cases (k * c) (length input)) as [Hle|Hgt].
  - rewrite take_app_add'; [done|]. rewrite length_take. lia.
  - rewrite !drop_ge by lia. rewrite take_nil, !app_nil_r.
    rewrite take_take. f_equal. lia.
Qed.

End ChunkLists.

Section ChunkTotals.

Variable input : list Z.
Variable c : nat.
Hypothesis Hc : 1 ≤ c.

(** The running total of the chunk totals is the total of the elements
    before the next chunk. *)
Lemma total_of_chunk_totals (k : nat) :
  1 ≤ k → k * c ≤ length input →
  total ((fun j => total (chunk input c j)) <$> seq 0 k)
  = total (take (k * c) input).
Proof using Hc.
  intros Hk. induction k as [|k IH]; [lia|]. intros Hlen.
  destruct (decide (k = 0)) as [->|Hk0].
  { replace (1 * c) with c by lia. unfold chunk. simpl. by rewrite drop_0. }
  replace (S k * c) with (k * c + c) in * by lia.
  rewrite seq_S, fmap_app. simpl.
  assert (Hchunk : chunk input c k ≠ []).
  { intros Hnil. apply (f_equal length) in Hnil.
    rewrite length_chunk in Hnil. simpl in Hnil. nia. }
  assert (Hpre : take (k * c) input ≠ []).
  { intros Hnil. apply (f_equal length) in Hnil.
    rewrite length_take in Hnil. simpl in Hnil. nia. }
  rewrite take_chunk by done.
  replace (take c (chunk input c k)) with (chunk input c k)
    by (symmetry; apply take_ge; rewrite length_chunk; lia).
  rewrite total_app; [| |done]; cycle 1.
  { intros Hnil. apply (f_equal length) in Hnil.
    rewrite length_fmap, length_seq in Hnil. simpl in Hnil. lia. }
  rewrite total_app by done.
  rewrite IH by lia. done.
Qed.

End ChunkTotals.

(** ** The thread bodies compute the list functions *)

Section ThreadBodies.
Local Open Scope Z_scope.

Variable input : list Z.
Variables c T : nat.
Hypothesis Hc : (1 ≤ c)%nat.
Hypothesis HTc : Z.of_nat T * Z.of_nat c < size_modulus.

Lemma chunk_start_nat (k : nat) :
  (k < T)%nat → chunk_start (Z.of_nat c) (Z.of_nat k) = Z.of_nat (k * c).
Proof using Hc HTc.
  intros Hk. rewrite (chunk_start_no_wrap _ (Z.of_nat T)) by lia. lia.
Qed.

Lemma chunk_end_nat (k : nat) :
  (k < T)%nat →
  chunk_end (vector_size input) (Z.of_nat c) (Z.of_nat k)
  = Z.of_nat ((k * c + c) `min` length input).
Proof using Hc HTc.
  intros Hk. rewrite (chunk_end_no_wrap _ (Z.of_nat T)) by lia.
  unfold vector_size. lia.
Qed.

Lemma scan_chunk_Done (k : nat) result lastValues :
  (k < T)%nat →
  length result = length input →
  length lastValues = T →
  scan_chunk input (vector_size input) (Z.of_nat c) (Z.of_nat k) (result, lastValues)
  = Done (scan_chunk_pure input c (result, lastValues) k).
Proof using Hc HTc.
  intros Hk Hres Hlast. unfold scan_chunk.
  rewrite chunk_start_nat, chunk_end_nat by done.
  unfold vector_size at 1.
  destruct (Z.leb_spec (Z.of_nat (length input)) (Z.of_nat (k * c))) as [Hle|Hgt].
  { unfold scan_chunk_pure. rewrite decide_True by lia. done. }
  unfold scan_chunk_pure. rewrite decide_False by lia. simpl.
  rewrite inclusive_scan_Done by lia.
  rewrite chunk_range. simpl.
  pose proof (length_chunk input c k) as Hlen.
  replace ((k * c + c) `min` length input - k * c)%nat
    with (length (chunk input c k)) by lia.
  fold (scanned_chunk input c k result).
  assert (Hsub : size_sub (Z.of_nat ((k * c + c) `min` length input)) 1
                 = Z.of_nat (k * c + (length (chunk input c k) - 1))).
  { unfold size_sub. rewrite wrap_size_id; [lia|].
    assert (Z.of_nat (k * c + c) <= Z.of_nat T * Z.of_nat c) by nia.
    lia. }
  rewrite Hsub.
  assert (Hcarry : scanned_chunk input c k result !! (k * c + (length (chunk input c k) - 1))%nat
                   = Some (total (chunk input c k))).
  { unfold scanned_chunk.
    rewrite lookup_app_r by (rewrite length_take; lia).
    rewrite length_take, Nat.min_l by lia.
    rewrite lookup_app_l by (rewrite length_scan_list; lia).
    replace (k * c + (length (chunk input c k) - 1) - k * c)%nat
      with (length (chunk input c k) - 1)%nat by lia.
    rewrite lookup_scan_list by lia.
    f_equal. f_equal. apply take_ge. lia. }
  rewrite (vector_read_Done _ _ _ Hcarry). simpl.
  rewrite vector_write_Done by lia. done.
Qed.

(** The loop that runs the thread bodies computes the fold of the list
    functions. *)
Lemma phase1_loop (ks : list nat) st :
  Forall (fun k => k < T)%nat ks →
  length st.1 = length input →
  length st.2 = T →
  for_each (scan_chunk input (vector_size input) (Z.of_nat c)) (Z.of_nat <$> ks) st
  = Done (foldl (scan_chunk_pure input c) st ks).
Proof using Hc HTc.
  revert st. induction ks as [|k ks IH]; intros [r lv] Hks Hres Hlv; [done|].
  pose proof (Forall_inv Hks) as Hk. pose proof (Forall_inv_tail Hks) as Hks'.
  simpl in Hres, Hlv.
  rewrite fmap_cons. cbn [for_each].
  rewrite scan_chunk_Done by done. simpl.
  destruct (scan_chunk_pure_length input c (r, lv) k Hres) as [H1 H2].
  apply IH; [done|done|]. simpl in H2. congruence.
Qed.

Lemma add_offset_Done prefixSums (k : nat) result :
  (1 ≤ k < T)%nat →
  length result = length input →
  (k - 1 < length prefixSums)%nat →
  add_offset prefixSums (vector_size input) (Z.of_nat c) (Z.of_nat k) result
  = Done (shifted_chunk input c prefixSums result k).
Proof using Hc HTc.
  intros Hk Hres HP. unfold add_offset, shifted_chunk.
  rewrite chunk_start_nat, chunk_end_nat by lia.
  unfold vector_size at 1.
  destruct (Z.leb_spec (Z.of_nat (length input)) (Z.of_nat (k * c))) as [Hle|Hgt].
  { rewrite decide_True by lia. done. }
  rewrite decide_False by lia.
  destruct (lookup_lt_is_Some_2 prefixSums (k - 1)) as [offset Hoff]; [done|].
  replace (Z.of_nat k - 1) with (Z.of_nat (k - 1)) by lia.
  rewrite (vector_read_Done _ _ _ Hoff), Hoff. simpl.
  pose proof (length_chunk input c k) as Hlen.
  replace (Z.of_nat ((k * c + c) `min` length input) - Z.of_nat (k * c))
    with (Z.of_nat (length (chunk input c k))) by lia.
  apply add_loop_Done. lia.
Qed.

Lemma phase3_loop prefixSums (ks : list nat) result :
  Forall (fun k => 1 ≤ k < T)%nat ks →
  length result = length input →
  length prefixSums = T →
  for_each (add_offset prefixSums (vector_size input) (Z.of_nat c))
           (Z.of_nat <$> ks) result
  = Done (foldl (shifted_chunk input c prefixSums) result ks).
Proof using Hc HTc.
  revert result. induction ks as [|k ks IH]; intros result Hks Hres HP; [done|].
  pose proof (Forall_inv Hks) as Hk. pose proof (Forall_inv_tail Hks) as Hks'.
  simpl in Hk.
  rewrite fmap_cons. cbn [for_each].
  rewrite add_offset_Done by (done || lia). simpl.
  apply IH; [done| |done]. by apply length_shifted_chunk.
Qed.

End ThreadBodies.

(** ** The chunked scan is the scan *)

Section ChunkedScan.

Variable input : list Z.
Variables c T : nat.
Hypothesis Hc : 1 ≤ c.
Hypothesis Hcover : length input ≤ T * c.

Lemma index_in_chunk (i : nat) :
  i < length input →
  ∃ k m, i = k * c + m ∧ k < T ∧ m < length (chunk input c k).
Proof using Hc Hcover.
  intros Hi. exists (i `div` c), (i `mod` c).
  pose proof (Nat.div_mod_eq i c) as Hdm.
  pose proof (Nat.mod_upper_bound i c ltac:(lia)) as Hmod.
  rewrite length_chunk.
  split; [lia|]. split; [|lia].
  destruct (Nat.lt_ge_cases (i `div` c) T) as [Hlt|Hge]; [done|].
  assert (T * c ≤ i `div` c * c) by nia. lia.
Qed.

Variables ks1 ks3 : list nat.
Hypothesis Hks1 : ∀ k, k ∈ ks1 ↔ k < T.
Hypothesis Hks3 : ∀ k, k ∈ ks3 ↔ 1 ≤ k < T.
Hypothesis Hnodup3 : NoDup ks3.

Lemma length_phase1_state :
  length (phase1_state input c T ks1).1 = length input
  ∧ length (phase1_state input c T ks1).2 = T.
Proof using Type.
  unfold phase1_state.
  destruct (phase1_pure_length input c ks1
              (replicate (length input) 0%Z, replicate T 0%Z)) as [H1 H2].
  { simpl. by rewrite length_replicate. }
  split; [done|]. rewrite H2. simpl. by rewrite length_replicate.
Qed.

Lemma carry_lookup (k : nat) :
  k < T →
  (phase1_state input c T ks1).2 !! k
  = Some (if decide (k * c < length input)
          then total (chunk input c k) else 0%Z).
Proof using Hks1.
  intros Hk. unfold phase1_state.
  rewrite phase1_pure_carry by (simpl; rewrite length_replicate; done).
  simpl. case_decide as H1.
  - by rewrite decide_True by tauto.
  - rewrite decide_False by (intros ?; apply H1; split; [by apply Hks1|done]).
    by apply lookup_replicate_2.
Qed.

Lemma prefixSums_lookup (k : nat) :
  1 ≤ k → k * c < length input →
  scan_list (phase1_state input c T ks1).2 !! (k - 1)
  = Some (total (take (k * c) input)).
Proof using Hc Hcover Hks1.
  intros Hk Hlen.
  assert (HkT : k < T).
  { destruct (Nat.lt_ge_cases k T) as [|Hge]; [done|].
    assert (T * c ≤ k * c) by nia. lia. }
  destruct length_phase1_state as [_ Hlv].
  rewrite lookup_scan_list by lia.
  replace (S (k - 1)) with k by lia.
  rewrite <- total_of_chunk_totals by lia.
  do 2 f_equal. apply list_eq. intros j.
  destruct (Nat.lt_ge_cases j k) as [Hj|Hj].
  - rewrite lookup_take_lt by done.
    rewrite carry_lookup by lia.
    rewrite list_lookup_fmap, lookup_seq_lt by done. simpl.
    rewrite decide_True; [done|]. nia.
  - rewrite lookup_take_ge by done.
    rewrite list_lookup_fmap, lookup_seq_ge by done. done.
Qed.

(** Whatever the order in which the threads of each phase run, the
    result is the inclusive scan of the input. *)
Lemma final_scan_list : scheduled_result input c T ks1 ks3 = scan_list input.
Proof using Hc Hcover Hks1 Hks3 Hnodup3.
  destruct length_phase1_state as [Hlen1 _].
  assert (Hlen3 : length (scheduled_result input c T ks1 ks3) = length input).
  { unfold scheduled_result. by apply phase3_pure_length. }
  apply list_eq. intros i.
  destruct (Nat.lt_ge_cases i (length input)) as [Hi|Hi]; cycle 1.
  { rewrite !lookup_ge_None_2; [done| |]; rewrite ?length_scan_list; lia. }
  destruct (index_in_chunk i Hi) as (k & m & -> & Hk & Hm).
  pose proof (length_chunk input c k) as Hlenk.
  assert (Hlocal : (phase1_state input c T ks1).1 !! (k * c + m)
                   = Some (total (take (S m) (chunk input c k)))).
  { unfold phase1_state.
    rewrite phase1_pure_result by (done || (simpl; by rewrite length_replicate)).
    rewrite decide_True by (by apply Hks1).
    by rewrite lookup_scan_list. }
  rewrite lookup_scan_list by done.
  unfold scheduled_result. rewrite phase3_pure_result by done.
  rewrite Hlocal.
  replace (S (k * c + m)) with (k * c + S m) by lia.
  rewrite take_chunk by lia.
  destruct (decide (k = 0)) as [->|Hk0].
  - rewrite decide_False by (rewrite Hks3; lia).
    simpl. done.
  - rewrite decide_True by (rewrite Hks3; lia).
    rewrite prefixSums_lookup by lia. simpl.
    rewrite total_app; [by rewrite int_add_comm| |].
    + intros Hnil. apply (f_equal length) in Hnil.
      rewrite length_take in Hnil. simpl in Hnil. nia.
    + intros Hnil. apply (f_equal length) in Hnil.
      rewrite length_take in Hnil. change (length []) with 0 in Hnil. lia.
Qed.

End ChunkedScan.

(** ** The three phases and the whole function *)

Section Phases.
Local Open Scope Z_scope.

Lemma seqZ_of_nat (a len : nat) :
  seqZ (Z.of_nat a) (Z.of_nat len) = Z.of_nat <$> seq a len.
Proof.
  apply list_eq. intros i. rewrite list_lookup_fmap.
  destruct (Nat.lt_ge_cases i len) as [Hi|Hi].
  - rewrite lookup_seqZ_lt, lookup_seq_lt by lia. simpl. f_equal. lia.
  - rewrite lookup_seqZ_ge, lookup_seq_ge by lia. done.
Qed.

Variable input : list Z.
Variables c T : nat.
Hypothesis Hc : (1 ≤ c)%nat.
Hypothesis HTc : Z.of_nat T * Z.of_nat c < size_modulus.

Lemma phase1_eq :
  phase1 input (vector_size input) (Z.of_nat c) (Z.of_nat T)
         (vector_new (vector_size input))
  = mkM ((EvSpawn <$> seqZ 0 (Z.of_nat T)) ++ replicate T EvJoin)
        (Done (after_phase1 input c T)).
Proof using Hc HTc.
  unfold phase1, vector_size. rewrite !vector_new_of_nat.
  rewrite (spawn_all_Done _ _ _ (after_phase1 input c T)); cycle 1.
  { change 0 with (Z.of_nat 0) at 1. rewrite seqZ_of_nat.
    apply (phase1_loop input c T Hc HTc); simpl; rewrite ?length_replicate; try done.
    apply list.Forall_forall. intros k Hk%elem_of_seq. lia. }
  rewrite join_all_eq, Nat2Z.id. unfold mbind, M_bind. simpl.
  by rewrite app_nil_r.
Qed.

Lemma length_after_phase1 :
  length (after_phase1 input c T).1 = length input
  ∧ length (after_phase1 input c T).2 = T.
Proof using Type.
  apply length_phase1_state.
Qed.

Lemma phase2_eq :
  phase2 (after_phase1 input c T).2 (Z.of_nat T) = Done (carry_prefix input c T).
Proof using Type.
  destruct length_after_phase1 as [_ Hlv]. by apply phase2_Done.
Qed.

Lemma phase3_eq_gen prefixSums result :
  (1 ≤ T)%nat →
  length result = length input →
  length prefixSums = T →
  phase3 prefixSums (vector_size input) (Z.of_nat c) (Z.of_nat T) result
  = mkM ((EvSpawn <$> seqZ 1 (Z.of_nat T - 1)) ++ replicate (T - 1) EvJoin)
        (Done (foldl (shifted_chunk input c prefixSums) result (seq 1 (T - 1)))).
Proof using Hc HTc.
  intros HT Hres HP. unfold phase3.
  erewrite spawn_all_Done; cycle 1.
  { replace (Z.of_nat T - 1) with (Z.of_nat (T - 1)) by lia.
    change 1 with (Z.of_nat 1) at 1. rewrite seqZ_of_nat.
    apply (phase3_loop input c T Hc HTc); [|done|done].
    apply list.Forall_forall. intros k Hk%elem_of_seq. lia. }
  rewrite join_all_eq. unfold mbind, M_bind. simpl.
  rewrite app_nil_r. do 3 f_equal. lia.
Qed.

Lemma phase3_eq :
  (1 ≤ T)%nat →
  phase3 (carry_prefix input c T) (vector_size input) (Z.of_nat c) (Z.of_nat T)
         (after_phase1 input c T).1
  = mkM ((EvSpawn <$> seqZ 1 (Z.of_nat T - 1)) ++ replicate (T - 1) EvJoin)
        (Done (after_phase3 input c T)).
Proof using Hc HTc.
  intros HT. destruct length_after_phase1 as [Hres Hlv].
  apply phase3_eq_gen; [done|done|].
  unfold carry_prefix. by rewrite length_scan_list.
Qed.

End Phases.

Section WholeFunction.
Local Open Scope Z_scope.

Lemma after_phase3_scan_list input (c T : nat) :
  (1 ≤ c)%nat → (length input ≤ T * c)%nat →
  after_phase3 input c T = scan_list input.
Proof.
  intros Hc Hcover. unfold after_phase3.
  apply (final_scan_list input c T Hc Hcover).
  - intros k. rewrite elem_of_seq. lia.
  - intros k. rewrite elem_of_seq. lia.
  - apply NoDup_seq.
Qed.

(** The fallback of line 41: no event, the result of the baseline. *)
Lemma fallback_path input numThreads :
  numThreads <= 1 ∨ vector_size input < 1000 →
  parallelInclusiveScan input numThreads = lift (sequential_scan input).
Proof.
  intros Hcond. unfold parallelInclusiveScan, sequential_scan.
  destruct (Z.leb_spec numThreads 1) as [|Hgt]; [done|].
  destruct (Z.ltb_spec (vector_size input) 1000) as [|Hge]; [done|lia].
Qed.

(** The parallel path: the trace of its events, and the inclusive scan
    of the input as its result. *)
Lemma parallel_path input numThreads :
  2 <= numThreads <= int_max →
  1000 <= vector_size input <= vector_max_size →
  parallelInclusiveScan input numThreads
  = mkM (parallel_trace (vector_size input) numThreads) (Done (scan_list input)).
Proof.
  intros HT Hn. unfold parallelInclusiveScan.
  destruct (Z.leb_spec numThreads 1) as [|_]; [lia|].
  destruct (Z.ltb_spec (vector_size input) 1000) as [|_]; [lia|].
  cbn [orb].
  pose proof (chunk_size_no_wrap (vector_size input) numThreads
                ltac:(lia) ltac:(lia)) as Hdiv.
  pose proof (ceil_div_bounds (vector_size input) numThreads
                ltac:(lia) ltac:(lia)) as Hceil.
  pose proof (ceil_div_pos (vector_size input) numThreads
                ltac:(lia) ltac:(lia)) as Hpos.
  pose proof (chunk_size_bound (vector_size input) numThreads
                ltac:(lia) ltac:(lia)) as Hbound.
  assert (Hconv : size_of_int numThreads = numThreads).
  { unfold size_of_int. apply wrap_size_id.
    unfold int_max, size_modulus in *. lia. }
  assert (Hnum : size_sub (size_add (vector_size input) (size_of_int numThreads)) 1
                 = vector_size input + numThreads - 1).
  { rewrite Hconv. unfold size_sub, size_add.
    assert ((2 ^ 63 - 1) / 4 < 2 ^ 62) by (apply Z.div_lt_upper_bound; lia).
    unfold vector_max_size, int_max, size_modulus in *.
    rewrite (wrap_size_id (_ + _)) by (unfold size_modulus; lia).
    apply wrap_size_id. unfold size_modulus. lia. }
  rewrite Hnum, Hconv.
  set (cs := (vector_size input + numThreads - 1) / numThreads) in *.
  set (c := Z.to_nat cs). set (T := Z.to_nat numThreads).
  assert (Hcs : cs = Z.of_nat c) by (unfold c; lia).
  assert (HTn : numThreads = Z.of_nat T) by (unfold T; lia).
  assert (Hc : (1 ≤ c)%nat) by lia.
  assert (HTc : Z.of_nat T * Z.of_nat c < size_modulus)
    by (rewrite <- Hcs, <- HTn; done).
  assert (Hcover : (length input ≤ T * c)%nat)
    by (unfold vector_size in *; nia).
  pose proof (phase1_eq input c T Hc HTc) as H1.
  pose proof (phase2_eq input c T) as H2.
  pose proof (phase3_eq input c T Hc HTc ltac:(lia)) as H3.
  rewrite (after_phase3_scan_list input c T Hc Hcover) in H3.
  rewrite <- Hcs, <- HTn in H1, H3. rewrite <- HTn in H2.
  erewrite M_bind_Done; [|by apply size_div_Done; lia|]; cycle 1.
  { fold cs. eapply M_bind_Done; [exact H1|].
    eapply M_bind_Done; [unfold lift; by rewrite H2|]. exact H3. }
  unfold parallel_trace. f_equal. simpl. f_equal.
  rewrite <- !app_assoc. fold T.
  replace (Z.to_nat (numThreads - 1)) with (T - 1)%nat by lia. done.
Qed.

(** [parallelInclusiveScan] returns, and returns the inclusive scan, for
    every thread count and every vector. *)
Lemma parallel_result input numThreads :
  numThreads <= int_max →
  vector_size input <= vector_max_size →
  result_of (parallelInclusiveScan input numThreads) = Done (scan_list input).
Proof.
  intros HT Hn.
  destruct (Z.le_gt_cases numThreads 1) as [Hle|Hgt].
  { rewrite fallback_path by lia. simpl. apply sequential_scan_Done. }
  destruct (Z.lt_ge_cases (vector_size input) 1000) as [Hlt|Hge].
  { rewrite fallback_path by lia. simpl. apply sequential_scan_Done. }
  by rewrite parallel_path by lia.
Qed.

End WholeFunction.

(** ** The order of the threads of a phase does not matter *)

Section ScheduleIndependence.
Local Open Scope Z_scope.

Variable input : list Z.
Variables c T : nat.
Hypothesis Hc : (1 ≤ c)%nat.
Hypothesis HTc : Z.of_nat T * Z.of_nat c < size_modulus.

Lemma index_decompose (i : nat) :
  (i < length input)%nat →
  ∃ k m : nat, i = (k * c + m)%nat ∧ (m < length (chunk input c k))%nat.
Proof using Hc.
  clear HTc. intros Hi. exists (i `div` c)%nat, (i `mod` c)%nat.
  pose proof (Nat.div_mod_eq i c) as Hdm.
  pose proof (Nat.mod_upper_bound i c ltac:(lia)) as Hmod.
  rewrite length_chunk. lia.
Qed.

Lemma phase1_pure_schedule ks ks' st :
  (∀ k, k ∈ ks ↔ k ∈ ks') →
  length st.1 = length input →
  foldl (scan_chunk_pure input c) st ks = foldl (scan_chunk_pure input c) st ks'.
Proof using Hc.
  clear HTc. intros Hsame Hres.
  destruct (phase1_pure_length input c ks st Hres) as [H1 H2].
  destruct (phase1_pure_length input c ks' st Hres) as [H1' H2'].
  rewrite (surjective_pairing (foldl _ st ks)).
  rewrite (surjective_pairing (foldl _ st ks')).
  f_equal; apply list_eq; intros i.
  - destruct (Nat.lt_ge_cases i (length input)) as [Hi|Hi]; cycle 1.
    { rewrite !lookup_ge_None_2; [done|lia|lia]. }
    destruct (index_decompose i Hi) as (k & m & -> & Hm).
    rewrite !phase1_pure_result by done.
    apply decide_ext, Hsame.
  - destruct (Nat.lt_ge_cases i (length st.2)) as [Hi|Hi]; cycle 1.
    { rewrite !lookup_ge_None_2; [done|lia|lia]. }
    rewrite !phase1_pure_carry by done.
    apply decide_ext. by rewrite Hsame.
Qed.

Lemma phase3_pure_schedule prefixSums ks ks' result :
  NoDup ks → NoDup ks' → (∀ k, k ∈ ks ↔ k ∈ ks') →
  length result = length input →
  foldl (shifted_chunk input c prefixSums) result ks
  = foldl (shifted_chunk input c prefixSums) result ks'.
Proof using Hc.
  clear HTc. intros Hnd Hnd' Hsame Hres.
  pose proof (phase3_pure_length input c prefixSums ks result Hres) as H1.
  pose proof (phase3_pure_length input c prefixSums ks' result Hres) as H1'.
  apply list_eq; intros i.
  destruct (Nat.lt_ge_cases i (length input)) as [Hi|Hi]; cycle 1.
  { rewrite !lookup_ge_None_2; [done|lia|lia]. }
  destruct (index_decompose i Hi) as (k & m & -> & Hm).
  rewrite !phase3_pure_result by done.
  apply decide_ext, Hsame.
Qed.

(** Phase 1: the threads may run in any order [ks] of the chunk indices
    [0..T-1]; the state they leave is the one of the creation order. *)
Theorem phase1_schedule_independent (ks : list nat) st :
  ks ≡ₚ seq 0 T →
  length st.1 = length input → length st.2 = T →
  for_each (scan_chunk input (vector_size input) (Z.of_nat c)) (Z.of_nat <$> ks) st
  = for_each (scan_chunk input (vector_size input) (Z.of_nat c))
             (seqZ 0 (Z.of_nat T)) st.
Proof using Hc HTc.
  intros Hperm Hres Hlv.
  assert (Hin : ∀ k : nat, k ∈ ks ↔ k ∈ seq 0 T) by (intros k; by rewrite Hperm).
  change 0 with (Z.of_nat 0). rewrite seqZ_of_nat.
  rewrite !(phase1_loop input c T Hc HTc); try done.
  - f_equal. by apply phase1_pure_schedule.
  - apply list.Forall_forall. intros k Hk%elem_of_seq. lia.
  - apply list.Forall_forall. intros k Hk%Hin%elem_of_seq. lia.
Qed.

(** Phase 3: the same for any order [ks] of the chunk indices
    [1..T-1]. *)
Theorem phase3_schedule_independent prefixSums (ks : list nat) result :
  ks ≡ₚ seq 1 (T - 1) →
  length result = length input → length prefixSums = T →
  for_each (add_offset prefixSums (vector_size input) (Z.of_nat c))
           (Z.of_nat <$> ks) result
  = for_each (add_offset prefixSums (vector_size input) (Z.of_nat c))
             (seqZ 1 (Z.of_nat (T - 1))) result.
Proof using Hc HTc.
  intros Hperm Hres HP.
  assert (Hin : ∀ k : nat, k ∈ ks ↔ k ∈ seq 1 (T - 1))
    by (intros k; by rewrite Hperm).
  change 1 with (Z.of_nat 1). rewrite seqZ_of_nat.
  rewrite !(phase3_loop input c T Hc HTc); try done.
  - f_equal. apply phase3_pure_schedule; [|apply NoDup_seq|done|done].
    rewrite Hperm. apply NoDup_seq.
  - apply list.Forall_forall. intros k Hk%elem_of_seq. lia.
  - apply list.Forall_forall. intros k Hk%Hin%elem_of_seq. lia.
Qed.

End ScheduleIndependence.

(** ** Sums without overflow *)

Section ExactSums.
Local Open Scope Z_scope.

Lemma sumZ_app l1 l2 : sumZ (l1 ++ l2) = sumZ l1 + sumZ l2.
Proof. unfold sumZ. induction l1 as [|x l1 IH]; simpl; lia. Qed.

Lemma sumZ_nonneg l : Forall (fun x => 0 <= x) l → 0 <= sumZ l.
Proof. unfold sumZ. induction 1; simpl; lia. Qed.

Lemma sumZ_take_le l (k : nat) :
  Forall (fun x => 0 <= x) l → sumZ (take k l) <= sumZ l.
Proof.
  intros Hl. rewrite <- (take_drop k l) at 2. rewrite sumZ_app.
  pose proof (sumZ_nonneg (drop k l) (Forall_drop _ _ _ Hl)). lia.
Qed.

Lemma sumZ_bounds lo hi l :
  Forall (fun x => lo <= x <= hi) l →
  lo * Z.of_nat (length l) <= sumZ l <= hi * Z.of_nat (length l).
Proof.
  unfold sumZ. induction 1 as [|x l Hx Hl IH]; simpl length; simpl foldr; [lia|].
  rewrite Nat2Z.inj_succ. lia.
Qed.

Lemma foldl_int_add_exact a l :
  0 <= a → Forall (fun x => 0 <= x) l → a + sumZ l <= int_max →
  foldl int_add a l = a + sumZ l.
Proof.
  revert a. induction l as [|x l IH]; intros a Ha Hl Hsum; simpl.
  - unfold sumZ. simpl. lia.
  - pose proof (Forall_inv Hl) as Hx. pose proof (Forall_inv_tail Hl) as Hl'.
    simpl in Hx. pose proof (sumZ_nonneg l Hl') as Hnn.
    unfold sumZ in *. simpl in Hsum.
    rewrite int_add_exact by (unfold in_int, int_min, int_max in *; lia).
    rewrite IH by (done || lia). lia.
Qed.

(** Without overflow the [int] total of a list of non-negative elements
    is its sum. *)
Lemma total_exact l :
  Forall (fun x => 0 <= x) l → sumZ l <= int_max → total l = sumZ l.
Proof.
  destruct l as [|x l]; [done|]. intros Hl Hsum.
  pose proof (Forall_inv Hl) as Hx. pose proof (Forall_inv_tail Hl) as Hl'.
  simpl in Hx. unfold total.
  rewrite foldl_int_add_exact; [done|done|done|]. by unfold sumZ in *.
Qed.

Lemma foldl_int_add_in_range a l :
  (∀ k : nat, (k ≤ length l)%nat → in_int (a + sumZ (take k l))) →
  foldl int_add a l = a + sumZ l.
Proof.
  revert a. induction l as [|x l IH]; intros a Hpre; simpl.
  - unfold sumZ. simpl. lia.
  - pose proof (Hpre 1%nat ltac:(simpl; lia)) as H1.
    unfold sumZ in H1 |- *. simpl in H1 |- *.
    rewrite int_add_exact by (by replace (a + x) with (a + (x + 0)) by lia).
    rewrite IH; [unfold sumZ; lia|].
    intros k Hk. specialize (Hpre (S k) ltac:(simpl; lia)).
    unfold sumZ in Hpre |- *. simpl in Hpre.
    by replace (a + x + foldr Z.add 0 (take k l))
      with (a + (x + foldr Z.add 0 (take k l))) by lia.
Qed.

(** When no prefix sum leaves the range of [int], the [int] total of a
    list is its sum. *)
Lemma total_in_range l :
  (∀ k : nat, (k ≤ length l)%nat → in_int (sumZ (take k l))) →
  total l = sumZ l.
Proof.
  destruct l as [|x l]; [done|]. intros Hpre. unfold total.
  rewrite foldl_int_add_in_range; [by unfold sumZ|].
  intros k Hk. specialize (Hpre (S k) ltac:(simpl; lia)).
  by unfold sumZ in *.
Qed.

Lemma scan_list_in_range l (i : nat) :
  (∀ k : nat, (k ≤ length l)%nat → in_int (sumZ (take k l))) →
  (i < length l)%nat →
  scan_list l !! i = Some (sumZ (take (S i) l)).
Proof.
  intros Hpre Hi. rewrite lookup_scan_list by done. f_equal.
  apply total_in_range. intros k Hk. rewrite take_take.
  apply Hpre. lia.
Qed.

Lemma scan_list_exact l (i : nat) :
  Forall (fun x => 0 <= x) l → sumZ l <= int_max → (i < length l)%nat →
  scan_list l !! i = Some (sumZ (take (S i) l)).
Proof.
  intros Hl Hsum Hi. rewrite lookup_scan_list by done. f_equal.
  apply total_exact; [by apply Forall_take|].
  pose proof (sumZ_take_le l (S i) Hl). lia.
Qed.

(** Each element of the scan is the previous one plus the next input
    element, in [int] arithmetic. *)
Lemma scan_list_step l (i : nat) x z :
  scan_list l !! i = Some x → l !! S i = Some z →
  scan_list l !! S i = Some (int_add x z).
Proof.
  intros Hx Hz. pose proof (lookup_lt_Some _ _ _ Hz) as Hlen.
  rewrite lookup_scan_list in Hx by lia. injection Hx as <-.
  rewrite lookup_scan_list by done.
  rewrite (take_S_r l (S i) z Hz). f_equal.
  rewrite total_app; [done| |done].
  destruct l; [simpl in Hlen; lia|done].
Qed.

Lemma scan_list_head l : scan_list l !! 0%nat = l !! 0%nat.
Proof. by destruct l. Qed.

End ExactSums.

(** ** The data generator *)

Section DataGeneratorFacts.
Local Open Scope Z_scope.

Variable engine : Type.
Variable mt19937 : Z → engine.
Variable uniform_int_distribution : Z → Z → engine → Z * engine.

Lemma length_draws (k : nat) g :
  length (draws engine uniform_int_distribution k g).1 = k.
Proof.
  induction k as [|k IH]; simpl; [done|].
  rewrite length_app, IH. simpl. lia.
Qed.

Lemma fill_loop (size k : nat) g :
  (k ≤ size)%nat →
  for_each (fill_step engine uniform_int_distribution) (seqZ 0 (Z.of_nat k))
           (replicate size 0, g)
  = Done ((draws engine uniform_int_distribution k g).1 ++ replicate (size - k) 0,
          (draws engine uniform_int_distribution k g).2).
Proof.
  induction k as [|k IH]; intros Hk.
  - simpl. by rewrite Nat.sub_0_r.
  - rewrite seqZ_S, for_each_app, IH by lia. rewrite Z.add_0_l.
    cbn [mbind outcome_bind for_each]. unfold fill_step. cbn [fst snd].
    pose proof (length_draws k g) as Hlen.
    rewrite vector_write_Done by (rewrite length_app, length_replicate; lia).
    simpl. do 2 f_equal.
    rewrite insert_app_r_alt by lia. rewrite Hlen, Nat.sub_diag.
    replace (size - k)%nat with (S (size - S k)) by lia. simpl.
    by rewrite <- app_assoc.
Qed.

Lemma generateRandomData_Done (size : nat) rd :
  generateRandomData engine mt19937 uniform_int_distribution (Z.of_nat size) rd
  = Done (draws engine uniform_int_distribution size (mt19937 rd)).1.
Proof.
  unfold generateRandomData. rewrite vector_new_of_nat.
  rewrite fill_loop by done. simpl.
  by rewrite Nat.sub_diag, app_nil_r.
Qed.

(** The contract of [std::uniform_int_distribution<int>(a, b)]. *)
Hypothesis distribution_range :
  ∀ a b g, a <= b → a <= (uniform_int_distribution a b g).1 <= b.

Lemma draws_range (k : nat) g :
  Forall (fun x => 1 <= x <= 100) (draws engine uniform_int_distribution k g).1.
Proof using distribution_range.
  induction k as [|k IH]; simpl; [by constructor|].
  apply Forall_app. split; [done|].
  constructor; [|by constructor]. apply distribution_range. lia.
Qed.

End DataGeneratorFacts.

(** The sample engine meets the contract of the distribution. *)
Lemma lcg_distribution_range (a b g : Z) :
  (a <= b → a <= (lcg_distribution a b g).1 <= b)%Z.
Proof.
  intros Hab. unfold lcg_distribution. simpl.
  pose proof (Z.mod_pos_bound g (b - a + 1)%Z ltac:(lia)). lia.
Qed.

(** ** The sweep driver *)

Section SweepFacts.
Local Open Scope Z_scope.

Variable time : Type.
Variable time_lt : time → time → bool.
Variable dbl_max : time.
Variable elapsed : Z → time.

Lemma maxK_of_no_overflow hwThreads :
  0 <= hwThreads → hwThreads * 4 <= int_max →
  maxK_of hwThreads = Z.min 32 (hwThreads * 4).
Proof.
  intros H0 H4. unfold maxK_of, int_mul, int_of_uint.
  rewrite (wrap_int_id hwThreads) by (unfold in_int, int_min, int_max in *; lia).
  rewrite wrap_int_id by (unfold in_int, int_min, int_max in *; lia). done.
Qed.

Lemma maxK_of_le_32 hwThreads : maxK_of hwThreads <= 32.
Proof. unfold maxK_of. lia. Qed.

(** From a hardware concurrency of [2^29] on, [(int)hwThreads * 4] leaves
    the range of [int]; with wrap-around [maxK] is then not
    [min(32, hwThreads * 4)]. *)
Lemma maxK_of_wraps : maxK_of (2 ^ 29) = int_min ∧ Z.min 32 (2 ^ 29 * 4) = 32.
Proof. split; reflexivity. Qed.

Lemma sweep_step_result data k (s : sweep time) :
  k <= int_max → vector_size data <= vector_max_size →
  result_of (sweep_step time time_lt elapsed data k s)
  = Done (sweep_pure time time_lt elapsed s k).
Proof.
  intros Hk Hn. unfold sweep_step, measureTime, sweep_pure.
  rewrite !result_of_bind, parallel_result by done. simpl.
  by destruct (time_lt (elapsed k) (bestTime s)).
Qed.

Lemma sweep_loop_result data ks (s : sweep time) :
  Forall (fun k => k <= int_max) ks → vector_size data <= vector_max_size →
  result_of (for_eachM (sweep_step time time_lt elapsed data) ks s)
  = Done (foldl (sweep_pure time time_lt elapsed) s ks).
Proof.
  intros Hks Hn. revert s. induction ks as [|k ks IH]; intros s; [done|].
  pose proof (Forall_inv Hks) as Hk. pose proof (Forall_inv_tail Hks) as Hks'.
  cbn [for_eachM foldl]. rewrite result_of_bind, sweep_step_result by done.
  by apply IH.
Qed.

(** One entry per iteration, in the order of the iterations. *)
Lemma sweep_pure_results ks (s : sweep time) :
  results (foldl (sweep_pure time time_lt elapsed) s ks)
  = results s ++ ((fun k => (k, elapsed k)) <$> ks).
Proof.
  revert s. induction ks as [|k ks IH]; intros s; cbn [foldl fmap list_fmap].
  - by rewrite app_nil_r.
  - rewrite IH. unfold sweep_pure.
    destruct (time_lt (elapsed k) (bestTime s)); simpl; by rewrite <- app_assoc.
Qed.

(** [<] on the measured times is a strict weak order, as [<] on the
    [double]s other than NaN is. *)
Hypothesis time_lt_irrefl : ∀ a, time_lt a a = false.
Hypothesis time_lt_trans :
  ∀ a b c, time_lt a b = true → time_lt b c = true → time_lt a c = true.
Hypothesis time_lt_cotrans :
  ∀ a b c, time_lt a b = true → time_lt a c = true ∨ time_lt c b = true.

(** After [j >= 1] iterations the best pair is the first minimum of the
    times measured so far. *)
Lemma sweep_pure_best (j : nat) :
  (1 ≤ j)%nat →
  (∀ k, 1 <= k <= Z.of_nat j → time_lt (elapsed k) dbl_max = true) →
  let s := foldl (sweep_pure time time_lt elapsed) (mkSweep [] dbl_max 1)
                 (seqZ 1 (Z.of_nat j)) in
  1 <= bestK s <= Z.of_nat j
  ∧ bestTime s = elapsed (bestK s)
  ∧ (∀ k, 1 <= k <= Z.of_nat j → time_lt (elapsed k) (bestTime s) = false)
  ∧ (∀ k, 1 <= k < bestK s → time_lt (bestTime s) (elapsed k) = true).
Proof using time_lt_irrefl time_lt_trans time_lt_cotrans.
  induction j as [|j IH]; [lia|]. intros _ Hmax.
  destruct (decide (j = 0)%nat) as [->|Hj].
  { change (Z.of_nat 1) with 1 in *.
    rewrite seqZ_cons, seqZ_nil by lia. cbn [foldl].
    unfold sweep_pure. cbn [bestTime results bestK].
    rewrite (Hmax 1) by lia. cbn [bestTime results bestK].
    split; [lia|]. split; [done|]. split.
    - intros k Hk. replace k with 1 by lia. apply time_lt_irrefl.
    - intros k Hk. lia. }
  rewrite seqZ_S, foldl_app. cbn [foldl].
  destruct IH as (Hrange & Hbest & Hmin & Hfirst); [lia|intros; apply Hmax; lia|].
  set (s := foldl _ _ (seqZ 1 (Z.of_nat j))) in *.
  unfold sweep_pure.
  destruct (time_lt (elapsed (1 + Z.of_nat j)) (bestTime s)) eqn:Hlt; simpl.
  - split; [lia|]. split; [done|]. split.
    + intros k Hk. destruct (decide (k = 1 + Z.of_nat j)) as [->|Hne].
      * apply time_lt_irrefl.
      * destruct (time_lt (elapsed k) (elapsed (1 + Z.of_nat j))) eqn:Hk'; [|done].
        rewrite <- (Hmin k) by lia. symmetry. by eapply time_lt_trans.
    + intros k Hk.
      destruct (time_lt_cotrans _ _ (elapsed k) Hlt) as [|Hcontra]; [done|].
      rewrite Hmin in Hcontra by lia. done.
  - split; [lia|]. split; [done|]. split; [|done].
    intros k Hk. destruct (decide (k = 1 + Z.of_nat j)) as [->|Hne]; [done|].
    apply Hmin. lia.
Qed.

End SweepFacts.

(** ** Worked examples *)

Section Examples.
Local Open Scope Z_scope.

(** The boundary example of the specification; 7 elements are below the
    threshold, so the baseline computes it. *)
Example scan_7_elements_3_threads :
  parallelInclusiveScan [1; 2; 3; 4; 5; 6; 7] 3
  = mkM [] (Done [1; 3; 6; 10; 15; 21; 28]).
Proof. reflexivity. Qed.

(** The same vector through the three phases, with chunks of 3 elements
    for 3 threads: the local scans and carries, the carry prefix, and the
    shifted chunks. *)
Example phases_7_elements_3_threads :
  result_of (phase1 [1; 2; 3; 4; 5; 6; 7] 7 3 3 (vector_new 7))
  = Done ([1; 3; 6; 4; 9; 15; 7], [6; 15; 7])
  ∧ phase2 [6; 15; 7] 3 = Done [6; 21; 28]
  ∧ result_of (phase3 [6; 21; 28] 7 3 3 [1; 3; 6; 4; 9; 15; 7])
    = Done [1; 3; 6; 10; 15; 21; 28].
Proof. repeat split; reflexivity. Qed.

(** More threads than elements: chunks of one element, seven empty chunks
    whose carry stays 0. *)
Example phases_3_elements_10_threads :
  result_of (phase1 [5; 6; 7] 3 (chunk_size 3 10) 10 (vector_new 3))
  = Done ([5; 6; 7], [5; 6; 7; 0; 0; 0; 0; 0; 0; 0])
  ∧ phase2 [5; 6; 7; 0; 0; 0; 0; 0; 0; 0] 10
    = Done [5; 11; 18; 18; 18; 18; 18; 18; 18; 18]
  ∧ result_of (phase3 [5; 11; 18; 18; 18; 18; 18; 18; 18; 18] 3
                      (chunk_size 3 10) 10 [5; 6; 7])
    = Done [5; 11; 18].
Proof. repeat split; reflexivity. Qed.

(** The parallel path on 1003 elements and 3 threads. *)
Example parallel_path_sample :
  parallelInclusiveScan sample_input 3
  = mkM (parallel_trace 1003 3) (Done (scan_list sample_input))
  ∧ parallel_trace 1003 3
    = [EvDivide 1005 3; EvSpawn 0; EvSpawn 1; EvSpawn 2; EvJoin; EvJoin; EvJoin;
       EvSpawn 1; EvSpawn 2; EvJoin; EvJoin].
Proof. split; by vm_compute. Qed.

(** Without the guard of line 41 a thread count of 0 would divide by
    zero. *)
Example chunk_size_division_by_zero n :
  result_of (size_div (size_sub (size_add n (size_of_int 0)) 1) (size_of_int 0))
  = Undefined DivisionByZero.
Proof. reflexivity. Qed.

(** A sweep with hardware concurrency 2: eight measurements; the times of
    [K = 4] and [K = 5] tie for the minimum and [K = 4] is reported. *)
Example sweep_tie :
  result_of (experiment3 Z Z.ltb sample_dbl_max sample_elapsed 2 [3; 1; 4])
  = Done (mkReport 8 (sample_elapsed 0)
            [(1, 62); (2, 56); (3, 52); (4, 50); (5, 50); (6, 52); (7, 56); (8, 62)]
            4 50 false).
Proof. by vm_compute. Qed.

End Examples.

(** * The claims of the specification *)

Section Claims.
Local Open Scope Z_scope.

(** C1.  For every vector [input] and every thread count
    [numThreads >= 1] ([numThreads] an [int], [input] a vector of at most
    [max_size()] elements), [parallelInclusiveScan(input, numThreads)]
    returns exactly what the single-threaded baseline returns, which is the
    inclusive scan: element [i] is [input[0] + ... + input[i]], the sum
    taken from the left in [int] arithmetic, and the sum in the integers
    when no prefix sum leaves the range of [int].  In particular thread
    counts [1] and [1000] and the baseline give the same result. *)
Theorem C1_parallel_scan_equals_sequential input numThreads :
  1 <= numThreads <= int_max →
  vector_size input <= vector_max_size →
  result_of (parallelInclusiveScan input numThreads) = sequential_scan input
  ∧ sequential_scan input = Done (scan_list input)
  ∧ length (scan_list input) = length input
  ∧ (∀ i : nat, (i < length input)%nat →
       scan_list input !! i = Some (total (take (S i) input)))
  ∧ ((∀ k : nat, (k ≤ length input)%nat → in_int (sumZ (take k input))) →
     ∀ i : nat, (i < length input)%nat →
       scan_list input !! i = Some (sumZ (take (S i) input)))
  ∧ result_of (parallelInclusiveScan input 1) = sequential_scan input
  ∧ result_of (parallelInclusiveScan input 1000) = sequential_scan input.
Proof.
  intros HT Hn. rewrite sequential_scan_Done.
  split; [apply parallel_result; lia|].
  split; [done|].
  split; [apply length_scan_list|].
  split; [intros i Hi; by apply lookup_scan_list|].
  split; [intros Hpre i Hi; by apply scan_list_in_range|].
  split; apply parallel_result; unfold int_max; lia.
Qed.

(** The hypotheses of C1 hold for 3 threads on the sample vector, which
    takes the parallel path. *)
Lemma C1_witness :
  (1 <= 3 <= int_max ∧ vector_size sample_input <= vector_max_size)
  ∧ result_of (parallelInclusiveScan sample_input 3) = sequential_scan sample_input.
Proof.
  assert (H1 : 1 <= 3 <= int_max) by (unfold int_max; lia).
  assert (H2 : vector_size sample_input <= vector_max_size) by (by vm_compute).
  split; [by split|].
  exact (proj1 (C1_parallel_scan_equals_sequential sample_input 3 H1 H2)).
Defined.

(** C2.  If the requested thread count is at most 1 (zero and negative
    counts included) or the input has fewer than 1000 elements,
    [parallelInclusiveScan] runs the single-threaded baseline and returns
    its result; it creates no thread and does not evaluate the chunk-size
    division, so no division by zero occurs. *)
Theorem C2_fallback_is_sequential input numThreads :
  numThreads <= 1 ∨ vector_size input < 1000 →
  parallelInclusiveScan input numThreads = mkM [] (sequential_scan input)
  ∧ sequential_scan input = Done (scan_list input)
  ∧ trace (parallelInclusiveScan input numThreads) = []
  ∧ (∀ num den, EvDivide num den ∉ trace (parallelInclusiveScan input numThreads))
  ∧ result_of (parallelInclusiveScan input numThreads) ≠ Undefined DivisionByZero.
Proof.
  intros Hcond. rewrite (fallback_path _ _ Hcond). unfold lift. simpl.
  rewrite sequential_scan_Done.
  split; [done|]. split; [done|]. split; [done|].
  split; [intros num den; apply not_elem_of_nil|done].
Qed.

(** The hypothesis of C2 holds for a thread count of 0. *)
Lemma C2_witness :
  (0 <= 1 ∨ vector_size [4; 5; 6] < 1000)
  ∧ parallelInclusiveScan [4; 5; 6] 0 = mkM [] (sequential_scan [4; 5; 6]).
Proof.
  assert (H : 0 <= 1 ∨ vector_size [4; 5; 6] < 1000) by (left; lia).
  split; [done|].
  exact (proj1 (C2_fallback_is_sequential [4; 5; 6] 0 H)).
Defined.

(** C3.  For every thread count above the input length, a chunk whose
    start index [t * chunkSize] is at or beyond [n] does no work, and its
    carry slot [lastValues[t]] still holds 0 after phase 1; the carry
    prefix that phase 2 computes holds, for every non-empty chunk [t >= 1],
    the total of the elements before the chunk, and the function returns
    the inclusive scan.  For example [parallelInclusiveScan([a,b,c], 10)]
    is the sequential scan of [[a,b,c]]. *)
Theorem C3_empty_chunks_keep_zero_carry input numThreads :
  vector_size input < numThreads <= int_max →
  let n := vector_size input in
  let chunkSize := chunk_size n numThreads in
  (∀ t st, n <= chunk_start chunkSize t →
           scan_chunk input n chunkSize t st = Done st)
  ∧ (∃ st prefixSums,
       result_of (phase1 input n chunkSize numThreads (vector_new n)) = Done st
       ∧ (∀ t, 0 <= t < numThreads → n <= chunk_start chunkSize t →
               vector_read st.2 t = Done 0)
       ∧ phase2 st.2 numThreads = Done prefixSums
       ∧ (∀ t, 1 <= t < numThreads → chunk_start chunkSize t < n →
               vector_read prefixSums (t - 1)
               = Done (total (take (Z.to_nat (chunk_start chunkSize t)) input))))
  ∧ result_of (parallelInclusiveScan input numThreads) = Done (scan_list input)
  ∧ (∀ a b c,
       parallelInclusiveScan [a; b; c] 10 = mkM [] (sequential_scan [a; b; c])
       ∧ sequential_scan [a; b; c]
         = Done [a; int_add a b; int_add (int_add a b) c]).
Proof.
  intros HT n chunkSize.
  assert (Hmax : int_max <= vector_max_size) by (by vm_compute).
  assert (Hn0 : 0 <= n) by (unfold n, vector_size; lia).
  split.
  { intros t st Hstart. unfold scan_chunk.
    destruct (Z.leb_spec n (chunk_start chunkSize t)); [done|lia]. }
  split; cycle 1.
  { split; [apply parallel_result; fold n; lia|].
    intros a b c. rewrite fallback_path by (right; by vm_compute).
    by rewrite sequential_scan_Done. }
  assert (Hcs : chunkSize = (n + numThreads - 1) / numThreads).
  { apply chunk_size_no_wrap; lia. }
  set (T := Z.to_nat numThreads).
  assert (HTn : numThreads = Z.of_nat T) by (unfold T; lia).
  destruct (Z.eq_dec n 0) as [Hzero|Hpos].
  - (* no element at all: every chunk is empty *)
    exists (vector_new n, vector_new numThreads), (scan_list (vector_new numThreads)).
    assert (Hskip : ∀ t st, scan_chunk input n chunkSize t st = Done st).
    { intros t st. unfold scan_chunk, chunk_start, size_mul.
      pose proof (wrap_size_nonneg (size_of_int t * chunkSize)).
      destruct (Z.leb_spec n (wrap_size (size_of_int t * chunkSize))); [done|lia]. }
    split.
    { unfold phase1. rewrite result_of_bind, spawn_all_result.
      rewrite for_each_skip by (intros; apply Hskip). simpl.
      rewrite result_of_bind, join_all_eq. done. }
    split.
    { intros t Ht _. simpl. rewrite HTn, vector_new_of_nat.
      replace t with (Z.of_nat (Z.to_nat t)) by lia.
      apply vector_read_Done, lookup_replicate_2. lia. }
    split.
    { simpl. rewrite HTn, vector_new_of_nat. apply phase2_Done.
      by rewrite length_replicate. }
    intros t Ht Hlt. unfold chunk_start, size_mul in Hlt.
    pose proof (wrap_size_nonneg (size_of_int t * chunkSize)). lia.
  - pose proof (ceil_div_pos n numThreads ltac:(lia) ltac:(lia)) as Hcpos.
    pose proof (ceil_div_bounds n numThreads ltac:(lia) ltac:(lia)) as Hceil.
    pose proof (chunk_size_bound n numThreads ltac:(lia) ltac:(lia)) as Hbound.
    rewrite <- Hcs in Hcpos, Hceil, Hbound.
    set (c := Z.to_nat chunkSize).
    assert (Hcn : chunkSize = Z.of_nat c) by (unfold c; lia).
    assert (Hc : (1 ≤ c)%nat) by lia.
    assert (HTc : Z.of_nat T * Z.of_nat c < size_modulus)
      by (rewrite <- Hcn, <- HTn; done).
    assert (Hcover : (length input ≤ T * c)%nat)
      by (unfold n, vector_size in *; nia).
    assert (Hks : ∀ k : nat, k ∈ seq 0 T ↔ (k < T)%nat)
      by (intros k; rewrite elem_of_seq; lia).
    exists (after_phase1 input c T), (carry_prefix input c T).
    split.
    { unfold n. rewrite Hcn, HTn, (phase1_eq input c T Hc HTc). done. }
    split.
    { intros t Ht Hstart.
      replace t with (Z.of_nat (Z.to_nat t)) in * by lia.
      set (k := Z.to_nat t) in *.
      rewrite Hcn, (chunk_start_nat c T Hc HTc k) in Hstart by lia.
      apply vector_read_Done. unfold after_phase1.
      rewrite (carry_lookup input c T (seq 0 T) Hks k) by lia.
      rewrite decide_False; [done|]. unfold n, vector_size in Hstart. lia. }
    split.
    { rewrite HTn. apply phase2_eq. }
    intros t Ht Hstart.
    replace t with (Z.of_nat (Z.to_nat t)) in * by lia.
    set (k := Z.to_nat t) in *.
    rewrite Hcn, (chunk_start_nat c T Hc HTc k) in * by lia.
    rewrite Nat2Z.id.
    replace (Z.of_nat k - 1) with (Z.of_nat (k - 1)) by lia.
    apply vector_read_Done. unfold carry_prefix, after_phase1.
    apply (prefixSums_lookup input c T Hc Hcover (seq 0 T) Hks k); [lia|].
    unfold n, vector_size in Hstart. lia.
Qed.

(** The hypothesis of C3 holds for 1500 threads on the 1003 elements of
    the sample vector. *)
Lemma C3_witness :
  vector_size sample_input < 1500 <= int_max
  ∧ result_of (parallelInclusiveScan sample_input 1500)
    = Done (scan_list sample_input).
Proof.
  assert (H : vector_size sample_input < 1500 <= int_max) by (by vm_compute).
  split; [done|].
  exact (proj1 (proj2 (proj2 (C3_empty_chunks_keep_zero_carry sample_input 1500 H)))).
Defined.

(** C4.  Scanning the empty vector returns the empty vector, and scanning
    a one-element vector [[x]] returns [[x]], for every thread count; in
    both cases the trace is empty: no thread is created and no division is
    evaluated. *)
Theorem C4_empty_and_singleton :
  (∀ numThreads, parallelInclusiveScan [] numThreads = mkM [] (Done []))
  ∧ (∀ x numThreads, parallelInclusiveScan [x] numThreads = mkM [] (Done [x])).
Proof.
  split; intros; rewrite fallback_path by (right; by vm_compute);
    by rewrite sequential_scan_Done.
Qed.

(** C5.  On the parallel path ([numThreads > 1], [n >= 1000]) the chunk
    size is [ceil(n / numThreads)] and the ranges
    [[t * chunkSize, min(t * chunkSize + chunkSize, n))], [t] in
    [0..numThreads-1], partition [[0, n)]: every index lies in exactly one
    of them, a chunk that ends before [n] has exactly [chunkSize] elements
    and is followed by the chunk that starts where it ends, so only the
    chunk that ends at [n] can be shorter, and a chunk whose start is at
    or beyond [n] is empty and skipped by both phases. *)
Theorem C5_chunks_partition (n numThreads : Z) :
  2 <= numThreads <= int_max → 1000 <= n <= vector_max_size →
  let chunkSize := chunk_size n numThreads in
  (chunkSize = (n + numThreads - 1) / numThreads
   ∧ (chunkSize - 1) * numThreads < n <= chunkSize * numThreads)
  ∧ (∀ t, 0 <= t < numThreads →
       chunk_start chunkSize t = t * chunkSize
       ∧ chunk_end n chunkSize t = Z.min (t * chunkSize + chunkSize) n)
  ∧ (∀ i, 0 <= i < n →
       ∃ t, 0 <= t < numThreads ∧ in_chunk n chunkSize t i
            ∧ ∀ t', 0 <= t' < numThreads → in_chunk n chunkSize t' i → t' = t)
  ∧ (∀ t, 0 <= t < numThreads → chunk_start chunkSize t < n →
       1 <= chunk_end n chunkSize t - chunk_start chunkSize t <= chunkSize
       ∧ (chunk_end n chunkSize t < n →
            chunk_end n chunkSize t - chunk_start chunkSize t = chunkSize
            ∧ t + 1 < numThreads
            ∧ chunk_start chunkSize (t + 1) = chunk_end n chunkSize t))
  ∧ (∀ t, 0 <= t < numThreads → n <= chunk_start chunkSize t →
       (∀ i, ¬ in_chunk n chunkSize t i)
       ∧ (∀ input st, scan_chunk input n chunkSize t st = Done st)
       ∧ (∀ prefixSums result,
            add_offset prefixSums n chunkSize t result = Done result)).
Proof.
  intros HT Hn chunkSize.
  assert (Hcs : chunkSize = (n + numThreads - 1) / numThreads)
    by (apply chunk_size_no_wrap; lia).
  pose proof (ceil_div_pos n numThreads ltac:(lia) ltac:(lia)) as Hcpos.
  pose proof (ceil_div_bounds n numThreads ltac:(lia) ltac:(lia)) as Hceil.
  pose proof (chunk_size_bound n numThreads ltac:(lia) ltac:(lia)) as Hbound.
  rewrite <- Hcs in Hcpos, Hceil, Hbound.
  assert (Hstart : ∀ t, 0 <= t < numThreads →
                        chunk_start chunkSize t = t * chunkSize).
  { intros t Ht. apply (chunk_start_no_wrap chunkSize numThreads); lia. }
  assert (Hend : ∀ t, 0 <= t < numThreads →
                      chunk_end n chunkSize t = Z.min (t * chunkSize + chunkSize) n).
  { intros t Ht. apply (chunk_end_no_wrap chunkSize numThreads); lia. }
  split; [split; [done|lia]|].
  split; [intros t Ht; by split; [apply Hstart|apply Hend]|].
  split.
  { intros i Hi.
    pose proof (Z.div_mod i chunkSize ltac:(lia)) as Hdm.
    pose proof (Z.mod_pos_bound i chunkSize ltac:(lia)) as Hmod.
    assert (H0 : 0 <= i / chunkSize) by (apply Z.div_pos; lia).
    assert (HltT : i / chunkSize < numThreads) by nia.
    exists (i / chunkSize). split; [lia|]. split.
    - unfold in_chunk. rewrite Hstart, Hend by lia. lia.
    - intros t' Ht' Hin. unfold in_chunk in Hin.
      rewrite Hstart, Hend in Hin by lia. nia. }
  split.
  { intros t Ht Hlt. rewrite Hstart in Hlt by done.
    rewrite Hstart, Hend by done.
    split; [lia|]. intros Hbefore.
    assert (t + 1 < numThreads) by nia.
    rewrite Hstart by lia. lia. }
  intros t Ht Hge. split.
  { intros i. unfold in_chunk, chunk_end. lia. }
  split.
  - intros input st. unfold scan_chunk.
    destruct (Z.leb_spec n (chunk_start chunkSize t)); [done|lia].
  - intros prefixSums result. unfold add_offset.
    destruct (Z.leb_spec n (chunk_start chunkSize t)); [done|lia].
Qed.

(** The hypotheses of C5 hold for [n = 1000] and 3 threads: chunks of 334
    elements, the last one of 332. *)
Lemma C5_witness :
  (2 <= 3 <= int_max ∧ 1000 <= 1000 <= vector_max_size)
  ∧ chunk_size 1000 3 = 334
  ∧ chunk_end 1000 334 2 - chunk_start 334 2 = 332
  ∧ ∀ i, 0 <= i < 1000 →
      ∃ t, 0 <= t < 3 ∧ in_chunk 1000 (chunk_size 1000 3) t i
           ∧ ∀ t', 0 <= t' < 3 → in_chunk 1000 (chunk_size 1000 3) t' i → t' = t.
Proof.
  assert (H1 : 2 <= 3 <= int_max) by (by vm_compute).
  assert (H2 : 1000 <= 1000 <= vector_max_size) by (by vm_compute).
  split; [done|]. split; [done|]. split; [done|].
  exact (proj1 (proj2 (proj2 (C5_chunks_partition 1000 3 H1 H2)))).
Defined.

(** C6.  On the parallel path, phase 3 started on any result vector of
    [n] elements and any carry prefix of [numThreads] elements returns a
    vector of the same length in which every element of chunk 0, the
    indices below [min(chunkSize, n)], is unchanged, and every element of
    a chunk [t] in [1..numThreads-1] has [prefixSums[t-1]] added to it. *)
Theorem C6_phase3_leaves_first_chunk prefixSums result numThreads :
  let n := vector_size result in
  let chunkSize := chunk_size n numThreads in
  2 <= numThreads <= int_max → 1000 <= n <= vector_max_size →
  vector_size prefixSums = numThreads →
  ∃ result',
    result_of (phase3 prefixSums n chunkSize numThreads result) = Done result'
    ∧ length result' = length result
    ∧ (∀ i : nat, Z.of_nat i < Z.min chunkSize n → result' !! i = result !! i)
    ∧ (∀ t (i : nat), 1 <= t < numThreads → in_chunk n chunkSize t (Z.of_nat i) →
         ∃ x offset,
           result !! i = Some x
           ∧ prefixSums !! Z.to_nat (t - 1) = Some offset
           ∧ result' !! i = Some (int_add x offset)).
Proof.
  intros n chunkSize HT Hn HP.
  assert (Hcs : chunkSize = (n + numThreads - 1) / numThreads)
    by (apply chunk_size_no_wrap; lia).
  pose proof (ceil_div_pos n numThreads ltac:(lia) ltac:(lia)) as Hcpos.
  pose proof (chunk_size_bound n numThreads ltac:(lia) ltac:(lia)) as Hbound.
  rewrite <- Hcs in Hcpos, Hbound.
  set (T := Z.to_nat numThreads). set (c := Z.to_nat chunkSize).
  assert (HTn : numThreads = Z.of_nat T) by (unfold T; lia).
  assert (Hcn : chunkSize = Z.of_nat c) by (unfold c; lia).
  assert (Hc : (1 ≤ c)%nat) by lia.
  assert (HTc : Z.of_nat T * Z.of_nat c < size_modulus)
    by (rewrite <- Hcn, <- HTn; done).
  assert (HPlen : length prefixSums = T) by (unfold vector_size in HP; lia).
  exists (foldl (shifted_chunk result c prefixSums) result (seq 1 (T - 1))).
  split.
  { unfold n. rewrite Hcn, HTn.
    rewrite (phase3_eq_gen result c T Hc HTc) by (done || lia). done. }
  split; [by apply phase3_pure_length|].
  split.
  - intros i Hi.
    assert (Hm : (i < length (chunk result c 0))%nat)
      by (rewrite length_chunk; unfold n, vector_size in Hi; lia).
    pose proof (phase3_pure_result result c prefixSums (seq 1 (T - 1)) result
                  0 i (NoDup_seq _ _) eq_refl Hm) as Hres.
    rewrite decide_False in Hres by (rewrite elem_of_seq; lia).
    exact Hres.
  - intros t i Ht Hin. unfold in_chunk in Hin.
    replace t with (Z.of_nat (Z.to_nat t)) in Hin by lia.
    set (k := Z.to_nat t) in *.
    rewrite Hcn in Hin.
    rewrite (chunk_start_nat c T Hc HTc k) in Hin by lia.
    unfold n in Hin. rewrite (chunk_end_nat result c T Hc HTc k) in Hin by lia.
    destruct (lookup_lt_is_Some_2 result i) as [x Hx]; [lia|].
    destruct (lookup_lt_is_Some_2 prefixSums (k - 1)) as [offset Hoff]; [lia|].
    exists x, offset. split; [done|].
    split; [by replace (Z.to_nat (t - 1)) with (k - 1)%nat by lia|].
    replace i with (k * c + (i - k * c))%nat at 1 by lia.
    rewrite phase3_pure_result; [|apply NoDup_seq|done|rewrite length_chunk; lia].
    rewrite decide_True by (rewrite elem_of_seq; lia).
    replace (k * c + (i - k * c))%nat with i by lia.
    by rewrite Hx, Hoff.
Qed.

(** The hypotheses of C6 hold for the sample vector, 3 threads and the
    carry prefix [[10, 20, 30]]. *)
Lemma C6_witness :
  (2 <= 3 <= int_max ∧ 1000 <= vector_size sample_input <= vector_max_size
   ∧ vector_size [10; 20; 30] = 3)
  ∧ ∃ result',
      result_of (phase3 [10; 20; 30] (vector_size sample_input)
                        (chunk_size (vector_size sample_input) 3) 3 sample_input)
      = Done result'
      ∧ length result' = length sample_input.
Proof.
  assert (H1 : 2 <= 3 <= int_max) by (by vm_compute).
  assert (H2 : 1000 <= vector_size sample_input <= vector_max_size)
    by (by vm_compute).
  assert (H3 : vector_size [10; 20; 30] = 3) by reflexivity.
  split; [exact (conj H1 (conj H2 H3))|].
  destruct (C6_phase3_leaves_first_chunk [10; 20; 30] sample_input 3 H1 H2 H3)
    as (result' & Hrun & Hlen & _).
  exists result'. exact (conj Hrun Hlen).
Defined.

(** C7, as the specification states it, fails when a prefix sum leaves
    the range of [int]: all elements of [[2147483647, 1]] are non-negative,
    the scan is [[2147483647, -2147483648]], which decreases, and the
    difference of its two elements is not [1] in the integers. *)
Lemma C7_counterexample :
  result_of (parallelInclusiveScan [2147483647; 1] 1)
  = Done [2147483647; -2147483648]
  ∧ Forall in_int [2147483647; 1]
  ∧ Forall (fun x => 0 <= x) [2147483647; 1]
  ∧ ¬ nondecreasing [2147483647; -2147483648]
  ∧ ¬ differences_match [2147483647; 1] [2147483647; -2147483648].
Proof.
  split; [by vm_compute|].
  split; [repeat constructor; by vm_compute|].
  split; [repeat constructor; lia|].
  split.
  - intros Hmono. specialize (Hmono 0%nat _ _ eq_refl eq_refl). lia.
  - intros [_ Hdiff]. specialize (Hdiff 0%nat _ _ _ eq_refl eq_refl eq_refl). lia.
Qed.

(** C7, amended.  For every input and every thread count
    [numThreads >= 1] the output has the length of the input,
    [output[0] = input[0]] and [output[i+1] = output[i] + input[i+1]] in
    [int] arithmetic, so [output[i+1] - output[i] = input[i+1]] with the
    subtraction taken in [int]; when no prefix sum of the input leaves the
    range of [int] the difference is exact in the integers, and when
    moreover every input element is non-negative (the sum of the input
    being at most [INT_MAX]) the output is non-decreasing. *)
Theorem C7_scan_differences input numThreads :
  1 <= numThreads <= int_max →
  vector_size input <= vector_max_size →
  ∃ out,
    result_of (parallelInclusiveScan input numThreads) = Done out
    ∧ length out = length input
    ∧ out !! 0%nat = input !! 0%nat
    ∧ (∀ (i : nat) x z, out !! i = Some x → input !! S i = Some z →
         out !! S i = Some (int_add x z))
    ∧ (Forall in_int input →
       ∀ (i : nat) x y z, out !! i = Some x → out !! S i = Some y →
         input !! S i = Some z → int_sub y x = z)
    ∧ ((∀ k : nat, (k ≤ length input)%nat → in_int (sumZ (take k input))) →
       differences_match input out)
    ∧ (Forall (fun x => 0 <= x) input → sumZ input <= int_max →
       differences_match input out ∧ nondecreasing out).
Proof.
  intros HT Hn. exists (scan_list input).
  split; [apply parallel_result; lia|].
  split; [apply length_scan_list|].
  split; [apply scan_list_head|].
  split; [intros i x z; apply scan_list_step|].
  split.
  - intros Hint i x y z Hx Hy Hz.
    rewrite (scan_list_step _ _ _ _ Hx Hz) in Hy. injection Hy as <-.
    apply int_sub_add.
    eapply (proj1 (list.Forall_forall _ _) Hint), list_elem_of_lookup_2, Hz.
  - assert (Hexact : (∀ k : nat, (k ≤ length input)%nat →
                         in_int (sumZ (take k input))) →
                    differences_match input (scan_list input)).
    { intros Hpre. split; [apply scan_list_head|].
      intros i x y z Hx Hy Hz. pose proof (lookup_lt_Some _ _ _ Hz) as Hlen.
      rewrite scan_list_in_range in Hx, Hy by (done || lia).
      injection Hx as <-. injection Hy as <-.
      rewrite (take_S_r input (S i) z Hz), sumZ_app.
      unfold sumZ at 2. simpl. lia. }
    split; [done|].
    intros Hpos Hsum.
    assert (Hpre : ∀ k : nat, (k ≤ length input)%nat →
                     in_int (sumZ (take k input))).
    { intros k _. pose proof (sumZ_take_le input k Hpos).
      pose proof (sumZ_nonneg (take k input) (Forall_take _ _ _ Hpos)).
      unfold in_int, int_min, int_max in *. lia. }
    destruct (Hexact Hpre) as [Hhead Hdiff].
    split; [by split|].
    intros i x y Hx Hy.
    assert (Hlen : (S i < length input)%nat).
    { rewrite <- length_scan_list. by eapply lookup_lt_Some. }
    destruct (lookup_lt_is_Some_2 input (S i) Hlen) as [z Hz].
    pose proof (Hdiff i x y z Hx Hy Hz).
    assert (0 <= z).
    { eapply (proj1 (list.Forall_forall _ _) Hpos), list_elem_of_lookup_2, Hz. }
    lia.
Qed.

(** The hypotheses of the amended C7 hold for 3 threads on the sample
    vector. *)
Lemma C7_witness :
  (1 <= 3 <= int_max ∧ vector_size sample_input <= vector_max_size)
  ∧ ∃ out,
      result_of (parallelInclusiveScan sample_input 3) = Done out
      ∧ length out = length sample_input.
Proof.
  assert (H1 : 1 <= 3 <= int_max) by (by vm_compute).
  assert (H2 : vector_size sample_input <= vector_max_size) by (by vm_compute).
  split; [exact (conj H1 H2)|].
  destruct (C7_scan_differences sample_input 3 H1 H2) as (out & Hrun & Hlen & _).
  exists out. exact (conj Hrun Hlen).
Defined.

Section GeneratorClaim.

Variable engine : Type.
Variable mt19937 : Z → engine.
Variable uniform_int_distribution : Z → Z → engine → Z * engine.

(** The contract of [std::uniform_int_distribution<int>(a, b)]: the value
    drawn lies in [[a, b]]. *)
Hypothesis distribution_range :
  ∀ a b g, a <= b → a <= (uniform_int_distribution a b g).1 <= b.

(** C9.  For every requested size and every seed of the engine,
    [generateRandomData] returns a vector of exactly [size] elements, all
    in [[1, 100]]; hence, for a size of at most 10,000,000, every inclusive
    prefix sum lies in [[1, 10^9]], which is within [int], and the scan of
    the data computes these sums without overflow. *)
Theorem C9_generated_data_range (size rd : Z) :
  0 <= size →
  ∃ data,
    generateRandomData engine mt19937 uniform_int_distribution size rd = Done data
    ∧ vector_size data = size
    ∧ Forall (fun x => 1 <= x <= 100) data
    ∧ Forall (fun s => 0 <= s <= 10000000) benchmark_sizes
    ∧ (size <= 10000000 →
       1000000000 <= int_max
       ∧ ∀ i : nat, (i < length data)%nat →
           1 <= sumZ (take (S i) data) <= 1000000000
           ∧ scan_list data !! i = Some (sumZ (take (S i) data))).
Proof using distribution_range.
  intros Hsize.
  replace size with (Z.of_nat (Z.to_nat size)) by lia.
  set (k := Z.to_nat size).
  set (data := (draws engine uniform_int_distribution k (mt19937 rd)).1).
  assert (Hlen : length data = k) by apply length_draws.
  assert (Hrange : Forall (fun x => 1 <= x <= 100) data)
    by (by apply draws_range).
  exists data.
  split; [apply generateRandomData_Done|].
  split; [unfold vector_size; lia|].
  split; [done|].
  split; [repeat constructor; lia|].
  intros Hmax. split; [by vm_compute|].
  assert (Hpos : Forall (fun x => 0 <= x) data).
  { apply list.Forall_forall. intros x Hx.
    pose proof (proj1 (list.Forall_forall _ _) Hrange x Hx) as Hx'.
    simpl in Hx'. lia. }
  pose proof (sumZ_bounds 1 100 data Hrange) as Hsum.
  assert (Hfit : sumZ data <= int_max) by (unfold int_max; lia).
  intros i Hi.
  pose proof (sumZ_bounds 1 100 (take (S i) data) (Forall_take _ _ _ Hrange)) as Hpre.
  rewrite length_take in Hpre.
  split; [lia|]. by apply scan_list_exact.
Qed.

End GeneratorClaim.

(** The hypotheses of C9 hold for the sample engine and a size of 5. *)
Lemma C9_witness :
  0 <= 5
  ∧ ∃ data,
      generateRandomData Z lcg_seed lcg_distribution 5 2024 = Done data
      ∧ vector_size data = 5
      ∧ Forall (fun x => 1 <= x <= 100) data.
Proof.
  assert (H : 0 <= 5) by lia.
  split; [exact H|].
  destruct (C9_generated_data_range Z lcg_seed lcg_distribution
              lcg_distribution_range 5 2024 H) as (data & Hrun & Hlen & Hrange & _).
  exists data. exact (conj Hrun (conj Hlen Hrange)).
Defined.

Section SweepClaims.

Variable time : Type.
Variable time_lt : time → time → bool.
Variable dbl_max : time.
Variable elapsed : Z → time.

(** C10.  When the platform reports a hardware concurrency of 0,
    [maxK = min(32, 0 * 4) = 0], the loop over [1..maxK] runs no iteration
    and records no pair, and the summary still reports [bestK = 1] and
    [bestTime = numeric_limits<double>::max()], a pair that is not among
    the recorded measurements. *)
Theorem C10_zero_hardware_concurrency data :
  maxK_of 0 = Z.min 32 (0 * 4)
  ∧ maxK_of 0 = 0
  ∧ seqZ 1 (maxK_of 0) = []
  ∧ (∃ rep,
       experiment3 time time_lt dbl_max elapsed 0 data = mkM [] (Done rep)
       ∧ rep_maxK rep = 0
       ∧ rep_results rep = []
       ∧ rep_bestK rep = 1
       ∧ rep_bestTime rep = dbl_max
       ∧ (rep_bestK rep, rep_bestTime rep) ∉ rep_results rep).
Proof.
  split; [done|]. split; [done|]. split; [done|].
  exists (mkReport 0 (elapsed 0) [] 1 dbl_max false).
  split.
  - unfold experiment3, measureTime.
    change (maxK_of 0) with 0. rewrite seqZ_nil by lia.
    rewrite sequential_scan_Done. done.
  - simpl. repeat split. apply not_elem_of_nil.
Qed.

(** [<] on the measured times is a strict weak order, as [<] on the
    [double]s other than NaN is. *)
Hypothesis time_lt_irrefl : ∀ a, time_lt a a = false.
Hypothesis time_lt_trans :
  ∀ a b c, time_lt a b = true → time_lt b c = true → time_lt a c = true.
Hypothesis time_lt_cotrans :
  ∀ a b c, time_lt a b = true → time_lt a c = true ∨ time_lt c b = true.

(** C8, amended.  When the reported hardware concurrency is at least 1
    (and [4 * hwThreads] is within [int]) and every measured time is below
    [numeric_limits<double>::max()], [maxK = min(32, hwThreads * 4)] is at
    least 1, the sweep records exactly [maxK] pairs [(K, time)], one for
    each [K] in [1..maxK] in increasing order, and the reported
    [(bestK, bestTime)] is one of the recorded pairs, no recorded time is
    smaller than [bestTime], and every pair recorded before [bestK] has a
    strictly larger time: the first minimum wins. *)
Theorem C8_sweep_reports_first_minimum hwThreads data :
  1 <= hwThreads → hwThreads * 4 <= int_max →
  vector_size data <= vector_max_size →
  (∀ k, 1 <= k <= maxK_of hwThreads → time_lt (elapsed k) dbl_max = true) →
  let maxK := maxK_of hwThreads in
  maxK = Z.min 32 (hwThreads * 4)
  ∧ 1 <= maxK <= 32
  ∧ ∃ rep,
      result_of (experiment3 time time_lt dbl_max elapsed hwThreads data) = Done rep
      ∧ rep_maxK rep = maxK
      ∧ rep_results rep = (fun k => (k, elapsed k)) <$> seqZ 1 maxK
      ∧ Z.of_nat (length (rep_results rep)) = maxK
      ∧ (rep_bestK rep, rep_bestTime rep) ∈ rep_results rep
      ∧ (∀ k t, (k, t) ∈ rep_results rep →
                time_lt t (rep_bestTime rep) = false)
      ∧ (∀ k t, (k, t) ∈ rep_results rep → k < rep_bestK rep →
                time_lt (rep_bestTime rep) t = true).
Proof using time_lt_irrefl time_lt_trans time_lt_cotrans.
  intros Hhw Hfit Hn Hfinite maxK.
  assert (HmaxK : maxK = Z.min 32 (hwThreads * 4))
    by (apply maxK_of_no_overflow; lia).
  split; [done|]. split; [lia|].
  set (s := foldl (sweep_pure time time_lt elapsed) (mkSweep [] dbl_max 1)
                  (seqZ 1 maxK)).
  exists (mkReport maxK (elapsed 0) (results s) (bestK s) (bestTime s)
                   (bestK s <? Z.quot maxK 2)).
  assert (Hresults : results s = (fun k => (k, elapsed k)) <$> seqZ 1 maxK).
  { unfold s. by rewrite sweep_pure_results. }
  destruct (sweep_pure_best time time_lt dbl_max elapsed
              time_lt_irrefl time_lt_trans time_lt_cotrans (Z.to_nat maxK))
    as (Hrange & Hbest & Hmin & Hfirst).
  { lia. }
  { intros k Hk. apply Hfinite. fold maxK. lia. }
  rewrite Z2Nat.id in Hrange, Hbest, Hmin, Hfirst by lia.
  fold s in Hrange, Hbest, Hmin, Hfirst.
  split.
  { unfold experiment3, measureTime. fold maxK.
    rewrite 2!result_of_bind. unfold lift at 1. cbn [result_of].
    rewrite sequential_scan_Done.
    change (result_of (mret (elapsed 0))) with (Done (elapsed 0)). cbv beta iota.
    rewrite result_of_bind, sweep_loop_result; [done| |done].
    apply list.Forall_forall. intros k Hk%elem_of_seqZ.
    unfold int_max. lia. }
  simpl. split; [done|]. split; [done|].
  split; [by rewrite Hresults, length_fmap, length_seqZ; lia|].
  split.
  { rewrite Hresults, Hbest. apply list_elem_of_fmap.
    exists (bestK s). split; [done|]. apply elem_of_seqZ. lia. }
  split.
  - intros k t Hin. rewrite Hresults in Hin.
    apply list_elem_of_fmap in Hin as (k' & [= -> ->] & Hk'%elem_of_seqZ).
    apply Hmin. lia.
  - intros k t Hin Hlt. rewrite Hresults in Hin.
    apply list_elem_of_fmap in Hin as (k' & [= -> ->] & Hk'%elem_of_seqZ).
    apply Hfirst. lia.
Qed.

End SweepClaims.

(** C8, as the specification states it, fails when the platform reports
    a hardware concurrency of 0: nothing is recorded, so the reported
    [bestK = 1] and [bestTime] are not the thread count and time of a
    recorded measurement. *)
Lemma C8_counterexample :
  ∃ rep,
    result_of (experiment3 Z Z.ltb sample_dbl_max sample_elapsed 0 [3; 1; 4])
    = Done rep
    ∧ rep_maxK rep = Z.min 32 (0 * 4)
    ∧ rep_results rep = []
    ∧ rep_bestK rep = 1
    ∧ rep_bestTime rep = sample_dbl_max
    ∧ ¬ (rep_bestK rep, rep_bestTime rep) ∈ rep_results rep.
Proof.
  exists (mkReport 0 (sample_elapsed 0) [] 1 sample_dbl_max false).
  split; [done|]. simpl. repeat split. apply not_elem_of_nil.
Qed.

(** The hypotheses of the amended C8 hold for a hardware concurrency of
    2, integer times and the sample clock. *)
Lemma C8_witness :
  (1 <= 2 ∧ 2 * 4 <= int_max ∧ vector_size sample_input <= vector_max_size)
  ∧ ∃ rep,
      result_of (experiment3 Z Z.ltb sample_dbl_max sample_elapsed 2 sample_input)
      = Done rep
      ∧ rep_maxK rep = 8
      ∧ (rep_bestK rep, rep_bestTime rep) ∈ rep_results rep.
Proof.
  assert (H1 : 1 <= 2) by lia.
  assert (H2 : 2 * 4 <= int_max) by (by vm_compute).
  assert (H3 : vector_size sample_input <= vector_max_size) by (by vm_compute).
  assert (Hirr : ∀ a, Z.ltb a a = false) by apply Z.ltb_irrefl.
  assert (Htrans : ∀ a b c, Z.ltb a b = true → Z.ltb b c = true → Z.ltb a c = true).
  { intros a b c Hab%Z.ltb_lt Hbc%Z.ltb_lt. apply Z.ltb_lt. lia. }
  assert (Hco : ∀ a b c, Z.ltb a b = true → Z.ltb a c = true ∨ Z.ltb c b = true).
  { intros a b c Hab%Z.ltb_lt. destruct (Z.ltb_spec a c); [by left|].
    right. apply Z.ltb_lt. lia. }
  assert (Hfin : ∀ k, 1 <= k <= maxK_of 2 →
                      Z.ltb (sample_elapsed k) sample_dbl_max = true).
  { change (maxK_of 2) with 8. intros k Hk. apply Z.ltb_lt.
    unfold sample_elapsed, sample_dbl_max.
    assert (2 ^ 10 <= 2 ^ 1024) by (apply Z.pow_le_mono_r; lia). nia. }
  split; [exact (conj H1 (conj H2 H3))|].
  destruct (C8_sweep_reports_first_minimum Z Z.ltb sample_dbl_max sample_elapsed
              Hirr Htrans Hco 2 sample_input H1 H2 H3 Hfin)
    as (_ & _ & rep & Hrun & HmaxK & _ & _ & Hbest & _).
  exists rep. exact (conj Hrun (conj HmaxK Hbest)).
Defined.

End Claims.

(** * Further properties of the code *)

Section TraceFacts.
Local Open Scope Z_scope.

Lemma trace_bind {A B : Type} (m : M A) (f : A → M B) :
  trace (m ≫= f)
  = match result_of m with
    | Done a => trace m ++ trace (f a)
    | Undefined _ => trace m
    end.
Proof. unfold mbind, M_bind. by destruct (result_of m). Qed.

Lemma count_events_app p tr1 tr2 :
  count_events p (tr1 ++ tr2) = (count_events p tr1 + count_events p tr2)%nat.
Proof. induction tr1 as [|e tr1 IH]; simpl; [done|]. rewrite IH. lia. Qed.

Lemma count_events_all p {A : Type} (f : A → event) (l : list A) :
  (∀ x, p (f x) = true) → count_events p (f <$> l) = length l.
Proof.
  intros Hall. induction l as [|x l IH]; [done|].
  rewrite fmap_cons. cbn [count_events]. by rewrite Hall, IH.
Qed.

Lemma count_events_none p {A : Type} (f : A → event) (l : list A) :
  (∀ x, p (f x) = false) → count_events p (f <$> l) = 0%nat.
Proof.
  intros Hnone. induction l as [|x l IH]; [done|].
  rewrite fmap_cons. cbn [count_events]. by rewrite Hnone, IH.
Qed.

Lemma count_events_replicate p (k : nat) e :
  count_events p (replicate k e) = if p e then k else 0%nat.
Proof.
  induction k as [|k IH]; simpl; [by destruct (p e)|].
  rewrite IH. by destruct (p e).
Qed.

(** The events of the parallel path, by kind. *)
Lemma parallel_trace_counts n (T : nat) :
  (1 ≤ T)%nat →
  count_events is_spawn (parallel_trace n (Z.of_nat T)) = (2 * T - 1)%nat
  ∧ count_events is_join (parallel_trace n (Z.of_nat T)) = (2 * T - 1)%nat
  ∧ count_events is_divide (parallel_trace n (Z.of_nat T)) = 1%nat.
Proof.
  intros HT. unfold parallel_trace. simpl.
  rewrite !count_events_app, !count_events_replicate. simpl.
  rewrite !(count_events_all is_spawn EvSpawn) by done.
  rewrite !(count_events_none is_join EvSpawn) by done.
  rewrite !(count_events_none is_divide EvSpawn) by done.
  rewrite !length_seqZ. lia.
Qed.

End TraceFacts.

Section ParallelPathFacts.
Local Open Scope Z_scope.

(** The natural numbers behind the chunk size and the thread count of the
    parallel path. *)
Lemma parallel_setup n numThreads :
  1 <= numThreads <= int_max → 1 <= n <= vector_max_size →
  ∃ c T : nat,
    chunk_size n numThreads = Z.of_nat c ∧ numThreads = Z.of_nat T
    ∧ (1 ≤ c)%nat ∧ (1 ≤ T)%nat
    ∧ Z.of_nat T * Z.of_nat c < size_modulus
    ∧ n <= Z.of_nat (T * c).
Proof.
  intros HT Hn.
  pose proof (chunk_size_no_wrap n numThreads ltac:(lia) ltac:(lia)) as Hcs.
  pose proof (ceil_div_pos n numThreads ltac:(lia) ltac:(lia)) as Hpos.
  pose proof (ceil_div_bounds n numThreads ltac:(lia) ltac:(lia)) as Hceil.
  pose proof (chunk_size_bound n numThreads ltac:(lia) ltac:(lia)) as Hbound.
  rewrite <- Hcs in Hpos, Hceil, Hbound.
  exists (Z.to_nat (chunk_size n numThreads)), (Z.to_nat numThreads).
  rewrite Nat2Z.inj_mul, !Z2Nat.id by lia.
  repeat split; lia.
Qed.

Lemma differences_from_scan_from p l :
  Forall in_int l → differences_from p (scan_from p l) = l.
Proof.
  intros Hl. revert p. induction Hl as [|x l Hx Hl IH]; intros p; simpl; [done|].
  by rewrite int_sub_add, IH.
Qed.

Lemma int_differences_scan_list l :
  Forall in_int l → int_differences (scan_list l) = l.
Proof.
  destruct l as [|x l]; [done|]. intros Hl. simpl.
  by rewrite differences_from_scan_from by (by eapply Forall_inv_tail).
Qed.

End ParallelPathFacts.

Section PhaseFacts.

Lemma scan_list_last l :
  l ≠ [] → scan_list l !! (length l - 1) = Some (total l).
Proof.
  intros Hl. destruct l as [|x l]; [done|].
  rewrite lookup_scan_list by (simpl; lia).
  do 2 f_equal. apply take_ge. simpl. lia.
Qed.

(** The running total of the chunk totals up to a non-empty chunk is the
    total of the elements up to the end of the chunk. *)
Lemma total_of_chunk_totals_upto input (c k : nat) :
  1 ≤ c → k * c < length input →
  total ((fun j => total (chunk input c j)) <$> seq 0 (S k))
  = total (take (k * c + c) input).
Proof.
  intros Hc Hk.
  destruct (decide (k = 0)) as [->|Hk0].
  { unfold chunk. simpl. by rewrite drop_0. }
  rewrite seq_S, fmap_app. simpl.
  assert (Hchunk : chunk input c k ≠ []).
  { intros Hnil. apply (f_equal length) in Hnil.
    rewrite length_chunk in Hnil. simpl in Hnil. nia. }
  assert (Hpre : take (k * c) input ≠ []).
  { intros Hnil. apply (f_equal length) in Hnil.
    rewrite length_take in Hnil. simpl in Hnil. nia. }
  rewrite (take_chunk input c k c) by done.
  replace (take c (chunk input c k)) with (chunk input c k)
    by (symmetry; apply take_ge; rewrite length_chunk; lia).
  rewrite total_app; [| |done]; cycle 1.
  { intros Hnil. apply (f_equal length) in Hnil.
    rewrite length_fmap, length_seq in Hnil. simpl in Hnil. lia. }
  rewrite total_app by done.
  rewrite (total_of_chunk_totals input c Hc k) by lia. done.
Qed.

Lemma take_min_length {A} (l : list A) (k : nat) :
  take (k `min` length l) l = take k l.
Proof.
  destruct (Nat.le_ge_cases k (length l)).
  - by rewrite Nat.min_l.
  - rewrite Nat.min_r by done. by rewrite !take_ge by lia.
Qed.

End PhaseFacts.

Section FurtherScanProperties.
Local Open Scope Z_scope.

(** X1.  Scanning a concatenation: for a non-empty vector [a] and any
    vector [b], the scan of [a ++ b] is the scan of [a] followed by the
    scan of [b] with the last element of the scan of [a] added to each
    element, in [int] arithmetic; the three scans may run with three
    different thread counts.  In particular the first [length a] elements
    of the output depend on [a] alone. *)
Theorem X1_scan_of_concatenation a b numThreads numThreadsA numThreadsB :
  a ≠ [] →
  numThreads <= int_max → numThreadsA <= int_max → numThreadsB <= int_max →
  vector_size (a ++ b) <= vector_max_size →
  ∃ outA outB lastA,
    result_of (parallelInclusiveScan a numThreadsA) = Done outA
    ∧ result_of (parallelInclusiveScan b numThreadsB) = Done outB
    ∧ list.last outA = Some lastA
    ∧ result_of (parallelInclusiveScan (a ++ b) numThreads)
      = Done (outA ++ map (int_add lastA) outB)
    ∧ take (length a) (outA ++ map (int_add lastA) outB) = outA.
Proof.
  intros Ha HT HTa HTb Hn.
  unfold vector_size in Hn. rewrite length_app in Hn.
  exists (scan_list a), (scan_list b), (total a).
  split; [apply parallel_result; [done|unfold vector_size; lia]|].
  split; [apply parallel_result; [done|unfold vector_size; lia]|].
  split.
  { rewrite last_lookup, length_scan_list.
    replace (Nat.pred (length a)) with (length a - 1)%nat by lia.
    by apply scan_list_last. }
  split.
  { rewrite parallel_result;
      [|done|unfold vector_size; rewrite length_app; lia].
    by rewrite scan_list_app. }
  rewrite take_app_le by (rewrite length_scan_list; lia).
  apply take_ge. rewrite length_scan_list. lia.
Qed.

(** The hypotheses of X1 hold for the sample vector followed by
    [[5, -3]], scanned with 4, 3 and 0 threads. *)
Lemma X1_witness :
  (sample_input ≠ [] ∧ 4 <= int_max ∧ 3 <= int_max ∧ 0 <= int_max
   ∧ vector_size (sample_input ++ [5; -3]) <= vector_max_size)
  ∧ ∃ outA outB lastA,
      result_of (parallelInclusiveScan sample_input 3) = Done outA
      ∧ result_of (parallelInclusiveScan [5; -3] 0) = Done outB
      ∧ list.last outA = Some lastA
      ∧ result_of (parallelInclusiveScan (sample_input ++ [5; -3]) 4)
        = Done (outA ++ map (int_add lastA) outB).
Proof.
  assert (H0 : sample_input ≠ []) by (intros H; discriminate H).
  assert (H1 : 4 <= int_max) by (by vm_compute).
  assert (H2 : 3 <= int_max) by (by vm_compute).
  assert (H3 : 0 <= int_max) by (by vm_compute).
  assert (H4 : vector_size (sample_input ++ [5; -3]) <= vector_max_size)
    by (by vm_compute).
  split; [exact (conj H0 (conj H1 (conj H2 (conj H3 H4))))|].
  destruct (X1_scan_of_concatenation sample_input [5; -3] 4 3 0
              H0 H1 H2 H3 H4)
    as (outA & outB & lastA & HA & HB & Hlast & Hall & _).
  exists outA, outB, lastA. exact (conj HA (conj HB (conj Hlast Hall))).
Defined.

(** X2.  On the parallel path the function evaluates the chunk-size
    division once, creates [numThreads] threads, joins [numThreads]
    threads, creates [numThreads - 1] threads and joins [numThreads - 1]
    threads, in this order: every thread it creates is joined before the
    next phase starts and before the function returns. *)
Theorem X2_threads_created_are_joined input numThreads :
  2 <= numThreads <= int_max →
  1000 <= vector_size input <= vector_max_size →
  let tr := trace (parallelInclusiveScan input numThreads) in
  tr = EvDivide (vector_size input + numThreads - 1) numThreads
       :: (EvSpawn <$> seqZ 0 numThreads)
       ++ replicate (Z.to_nat numThreads) EvJoin
       ++ (EvSpawn <$> seqZ 1 (numThreads - 1))
       ++ replicate (Z.to_nat (numThreads - 1)) EvJoin
  ∧ Z.of_nat (count_events is_spawn tr) = 2 * numThreads - 1
  ∧ count_events is_join tr = count_events is_spawn tr
  ∧ count_events is_divide tr = 1%nat.
Proof.
  intros HT Hn tr. unfold tr. rewrite parallel_path by done. cbn [trace].
  split; [done|].
  destruct (parallel_trace_counts (vector_size input) (Z.to_nat numThreads))
    as (Hs & Hj & Hd); [lia|].
  rewrite Z2Nat.id in Hs, Hj, Hd by lia.
  rewrite Hs, Hj, Hd. split; [lia|done].
Qed.

(** The hypotheses of X2 hold for 3 threads on the sample vector. *)
Lemma X2_witness :
  (2 <= 3 <= int_max ∧ 1000 <= vector_size sample_input <= vector_max_size)
  ∧ Z.of_nat (count_events is_spawn (trace (parallelInclusiveScan sample_input 3)))
    = 2 * 3 - 1.
Proof.
  assert (H1 : 2 <= 3 <= int_max) by (by vm_compute).
  assert (H2 : 1000 <= vector_size sample_input <= vector_max_size)
    by (by vm_compute).
  split; [exact (conj H1 H2)|].
  exact (proj1 (proj2 (X2_threads_created_are_joined sample_input 3 H1 H2))).
Defined.

(** X3.  The input can be recovered from the output: the differences of
    adjacent output elements in [int] arithmetic, the first element kept,
    are the input; so two vectors of [int]s with the same scan are equal,
    whatever the thread counts. *)
Theorem X3_differences_recover_input input numThreads :
  Forall in_int input →
  numThreads <= int_max → vector_size input <= vector_max_size →
  (∃ out,
     result_of (parallelInclusiveScan input numThreads) = Done out
     ∧ int_differences out = input)
  ∧ ∀ input' numThreads',
      Forall in_int input' →
      numThreads' <= int_max → vector_size input' <= vector_max_size →
      result_of (parallelInclusiveScan input' numThreads')
      = result_of (parallelInclusiveScan input numThreads) →
      input' = input.
Proof.
  intros Hint HT Hn. split.
  - exists (scan_list input). split; [by apply parallel_result|].
    by apply int_differences_scan_list.
  - intros input' T' Hint' HT' Hn' Heq.
    rewrite !parallel_result in Heq by done. injection Heq as Heq.
    rewrite <- (int_differences_scan_list input') by done.
    rewrite Heq. by apply int_differences_scan_list.
Qed.

(** The hypotheses of X3 hold for [[2147483647, 1, -5]], whose scan
    overflows. *)
Lemma X3_witness :
  (Forall in_int [2147483647; 1; -5] ∧ 3 <= int_max
   ∧ vector_size [2147483647; 1; -5] <= vector_max_size)
  ∧ ∃ out,
      result_of (parallelInclusiveScan [2147483647; 1; -5] 3) = Done out
      ∧ int_differences out = [2147483647; 1; -5].
Proof.
  assert (H1 : Forall in_int [2147483647; 1; -5])
    by (repeat constructor; by vm_compute).
  assert (H2 : 3 <= int_max) by (by vm_compute).
  assert (H3 : vector_size [2147483647; 1; -5] <= vector_max_size)
    by (by vm_compute).
  split; [exact (conj H1 (conj H2 H3))|].
  exact (proj1 (X3_differences_recover_input [2147483647; 1; -5] 3 H1 H2 H3)).
Defined.

(** X4.  On the parallel path only the first
    [ceil(n / chunkSize)] threads of a phase have a chunk to work on; this
    number is at least 1 and at most [numThreads], and every thread from it
    on is created and returns at once, in phase 1 and in phase 3. *)
Theorem X4_working_threads (n numThreads : Z) :
  2 <= numThreads <= int_max → 1000 <= n <= vector_max_size →
  let chunkSize := chunk_size n numThreads in
  let working := working_threads n chunkSize in
  1 <= working <= numThreads
  ∧ (working - 1) * chunkSize < n <= working * chunkSize
  ∧ (∀ t, 0 <= t < numThreads → chunk_start chunkSize t < n ↔ t < working)
  ∧ (∀ t, working <= t < numThreads →
       (∀ input st, scan_chunk input n chunkSize t st = Done st)
       ∧ (∀ prefixSums result,
            add_offset prefixSums n chunkSize t result = Done result)).
Proof.
  intros HT Hn chunkSize working.
  assert (Hcs : chunkSize = (n + numThreads - 1) / numThreads)
    by (apply chunk_size_no_wrap; lia).
  pose proof (ceil_div_pos n numThreads ltac:(lia) ltac:(lia)) as Hcpos.
  pose proof (ceil_div_bounds n numThreads ltac:(lia) ltac:(lia)) as Hceil.
  pose proof (chunk_size_bound n numThreads ltac:(lia) ltac:(lia)) as Hbound.
  rewrite <- Hcs in Hcpos, Hceil, Hbound.
  pose proof (ceil_div_bounds n chunkSize ltac:(lia) ltac:(lia)) as Hw.
  pose proof (ceil_div_pos n chunkSize ltac:(lia) ltac:(lia)) as Hwpos.
  fold (working_threads n chunkSize) in Hw, Hwpos. fold working in Hw, Hwpos.
  assert (HwT : working <= numThreads) by nia.
  assert (Hstart : ∀ t, 0 <= t < numThreads →
                        chunk_start chunkSize t = t * chunkSize).
  { intros t Ht. apply (chunk_start_no_wrap chunkSize numThreads); lia. }
  split; [lia|]. split; [nia|]. split.
  - intros t Ht. rewrite Hstart by done. split; intros; nia.
  - intros t Ht.
    assert (n <= chunk_start chunkSize t) by (rewrite Hstart by lia; nia).
    split.
    + intros input st. unfold scan_chunk.
      destruct (Z.leb_spec n (chunk_start chunkSize t)); [done|lia].
    + intros prefixSums result. unfold add_offset.
      destruct (Z.leb_spec n (chunk_start chunkSize t)); [done|lia].
Qed.

(** The hypotheses of X4 hold for 1000 elements and 999 threads: chunks of
    2 elements, 500 working threads, 499 that return at once. *)
Lemma X4_witness :
  (2 <= 999 <= int_max ∧ 1000 <= 1000 <= vector_max_size)
  ∧ chunk_size 1000 999 = 2
  ∧ working_threads 1000 (chunk_size 1000 999) = 500
  ∧ 1 <= working_threads 1000 (chunk_size 1000 999) <= 999.
Proof.
  assert (H1 : 2 <= 999 <= int_max) by (by vm_compute).
  assert (H2 : 1000 <= 1000 <= vector_max_size) by (by vm_compute).
  split; [exact (conj H1 H2)|].
  split; [reflexivity|]. split; [reflexivity|].
  exact (proj1 (X4_working_threads 1000 999 H1 H2)).
Defined.

End FurtherScanProperties.


Section PhasePostconditions.
Local Open Scope Z_scope.

(** X5.  Phase 1 at any thread count: when its threads have been joined,
    [result] holds over every non-empty chunk the inclusive scan of that
    chunk of the input alone, and [lastValues[t]] holds the total of the
    chunk, which is also the last element [result[end - 1]] of the
    chunk. *)
Theorem X5_phase1_postcondition input numThreads :
  1 <= numThreads <= int_max →
  1 <= vector_size input <= vector_max_size →
  let n := vector_size input in
  let chunkSize := chunk_size n numThreads in
  ∃ result lastValues,
    result_of (phase1 input n chunkSize numThreads (vector_new n))
    = Done (result, lastValues)
    ∧ vector_size result = n
    ∧ vector_size lastValues = numThreads
    ∧ ∀ t, 0 <= t < numThreads → chunk_start chunkSize t < n →
        let elems := chunk input (Z.to_nat chunkSize) (Z.to_nat t) in
        elems ≠ []
        ∧ vector_range input (chunk_start chunkSize t) (chunk_end n chunkSize t)
          = Done elems
        ∧ vector_range result (chunk_start chunkSize t) (chunk_end n chunkSize t)
          = Done (scan_list elems)
        ∧ vector_read lastValues t = Done (total elems)
        ∧ vector_read result (chunk_end n chunkSize t - 1) = Done (total elems).
Proof.
  intros HT Hn n chunkSize.
  destruct (parallel_setup n numThreads HT Hn)
    as (c & T & Hcn & HTn & Hc & HT1 & HTc & Hcover).
  subst chunkSize n.
  assert (Hcover' : (length input ≤ T * c)%nat)
    by (unfold vector_size in Hcover; lia).
  assert (Hks : ∀ k : nat, k ∈ seq 0 T ↔ (k < T)%nat)
    by (intros k; rewrite elem_of_seq; lia).
  destruct (length_after_phase1 input c T) as [Hlen1 Hlen2].
  exists (after_phase1 input c T).1, (after_phase1 input c T).2.
  split.
  { rewrite Hcn, HTn, (phase1_eq input c T Hc HTc).
    simpl. by destruct (after_phase1 input c T). }
  split; [unfold vector_size; by rewrite Hlen1|].
  split; [unfold vector_size; by rewrite Hlen2|].
  intros t Ht Hstart elems.
  unfold elems. clear elems. rewrite Hcn in Hstart |- *.
  destruct (Z_of_nat_complete t) as [k ->]; [lia|].
  rewrite !Nat2Z.id.
  assert (HkT : (k < T)%nat) by lia.
  rewrite (chunk_start_nat c T Hc HTc k HkT) in Hstart.
  rewrite (chunk_start_nat c T Hc HTc k HkT),
    (chunk_end_nat input c T Hc HTc k HkT).
  unfold vector_size in Hstart.
  assert (Hk : (k * c < length input)%nat) by lia.
  pose proof (length_chunk input c k) as Hlc.
  assert (Hne : chunk input c k ≠ []).
  { intros Hnil. rewrite Hnil in Hlc. simpl in Hlc. lia. }
  split; [done|].
  split.
  { rewrite vector_range_Done by lia. by rewrite chunk_range. }
  assert (Hres : ∀ m : nat, (m < length (chunk input c k))%nat →
            (after_phase1 input c T).1 !! (k * c + m)%nat
            = scan_list (chunk input c k) !! m).
  { intros m Hm. unfold after_phase1, phase1_state.
    rewrite (phase1_pure_result input c)
      by (simpl; rewrite ?length_replicate; done).
    rewrite decide_True by (apply Hks; done). done. }
  split.
  { rewrite vector_range_Done by lia. f_equal.
    apply list_eq. intros m.
    destruct (Nat.lt_ge_cases m (length (chunk input c k))) as [Hm|Hm].
    - rewrite lookup_take_lt by lia. rewrite lookup_drop. by apply Hres.
    - rewrite lookup_take_ge by lia.
      symmetry. apply lookup_ge_None_2. rewrite length_scan_list. lia. }
  split.
  { apply vector_read_Done. unfold after_phase1.
    rewrite (carry_lookup input c T (seq 0 T) Hks k) by done.
    by rewrite decide_True by done. }
  replace (Z.of_nat ((k * c + c) `min` length input) - 1)
    with (Z.of_nat (k * c + (length (chunk input c k) - 1))) by lia.
  apply vector_read_Done. rewrite Hres by lia. by apply scan_list_last.
Qed.

(** The hypotheses of X5 hold for 3 threads on the sample vector. *)
Lemma X5_witness :
  (1 <= 3 <= int_max ∧ 1 <= vector_size sample_input <= vector_max_size)
  ∧ ∃ result lastValues,
      result_of (phase1 sample_input (vector_size sample_input)
                        (chunk_size (vector_size sample_input) 3) 3
                        (vector_new (vector_size sample_input)))
      = Done (result, lastValues)
      ∧ vector_size result = vector_size sample_input.
Proof.
  assert (H1 : 1 <= 3 <= int_max) by (by vm_compute).
  assert (H2 : 1 <= vector_size sample_input <= vector_max_size)
    by (by vm_compute).
  split; [exact (conj H1 H2)|].
  destruct (X5_phase1_postcondition sample_input 3 H1 H2)
    as (result & lastValues & Hres & Hlen & _).
  exists result, lastValues. exact (conj Hres Hlen).
Defined.

(** X6.  Phase 2 at any thread count: for every non-empty chunk [t],
    [prefixSums[t]] is the total of all input elements up to the end of
    chunk [t], which is the element [end - 1] of the inclusive scan of the
    whole input; so the offset [prefixSums[t - 1]] that phase 3 adds to
    chunk [t] is the scan value just before the chunk. *)
Theorem X6_phase2_postcondition input numThreads :
  1 <= numThreads <= int_max →
  1 <= vector_size input <= vector_max_size →
  let n := vector_size input in
  let chunkSize := chunk_size n numThreads in
  ∃ st prefixSums,
    result_of (phase1 input n chunkSize numThreads (vector_new n)) = Done st
    ∧ phase2 st.2 numThreads = Done prefixSums
    ∧ vector_size prefixSums = numThreads
    ∧ ∀ t, 0 <= t < numThreads → chunk_start chunkSize t < n →
        vector_read prefixSums t
        = Done (total (take (Z.to_nat (chunk_end n chunkSize t)) input))
        ∧ vector_read prefixSums t
          = vector_read (scan_list input) (chunk_end n chunkSize t - 1).
Proof.
  intros HT Hn n chunkSize.
  destruct (parallel_setup n numThreads HT Hn)
    as (c & T & Hcn & HTn & Hc & HT1 & HTc & Hcover).
  subst chunkSize n.
  assert (Hcover' : (length input ≤ T * c)%nat)
    by (unfold vector_size in Hcover; lia).
  assert (Hks : ∀ k : nat, k ∈ seq 0 T ↔ (k < T)%nat)
    by (intros k; rewrite elem_of_seq; lia).
  destruct (length_after_phase1 input c T) as [Hlen1 Hlen2].
  exists (after_phase1 input c T), (carry_prefix input c T).
  split; [by rewrite Hcn, HTn, (phase1_eq input c T Hc HTc)|].
  split; [rewrite HTn; by apply phase2_eq|].
  split.
  { unfold vector_size, carry_prefix. by rewrite length_scan_list, Hlen2. }
  intros t Ht Hstart. rewrite Hcn in Hstart |- *.
  destruct (Z_of_nat_complete t) as [k ->]; [lia|].
  assert (HkT : (k < T)%nat) by lia.
  rewrite (chunk_start_nat c T Hc HTc k HkT) in Hstart.
  rewrite (chunk_end_nat input c T Hc HTc k HkT).
  unfold vector_size in Hstart.
  assert (Hk : (k * c < length input)%nat) by lia.
  rewrite Nat2Z.id, take_min_length.
  assert (Hcarry : carry_prefix input c T !! k
                   = Some (total (take (k * c + c) input))).
  { unfold carry_prefix. rewrite lookup_scan_list by lia.
    rewrite <- total_of_chunk_totals_upto by done.
    do 2 f_equal. apply list_eq. intros j.
    destruct (Nat.lt_ge_cases j (S k)) as [Hj|Hj].
    - rewrite lookup_take_lt by done. unfold after_phase1.
      rewrite (carry_lookup input c T (seq 0 T) Hks j) by lia.
      rewrite list_lookup_fmap, lookup_seq_lt by done. simpl.
      rewrite decide_True; [done|]. nia.
    - rewrite lookup_take_ge by done.
      rewrite list_lookup_fmap, lookup_seq_ge by done. done. }
  split; [by apply vector_read_Done|].
  rewrite (vector_read_Done _ _ _ Hcarry).
  replace (Z.of_nat ((k * c + c) `min` length input) - 1)
    with (Z.of_nat ((k * c + c) `min` length input - 1)) by lia.
  symmetry. apply vector_read_Done.
  rewrite lookup_scan_list by lia.
  replace (S ((k * c + c) `min` length input - 1))
    with ((k * c + c) `min` length input)%nat by lia.
  by rewrite take_min_length.
Qed.

(** The hypotheses of X6 hold for 4 threads on the sample vector. *)
Lemma X6_witness :
  (1 <= 4 <= int_max ∧ 1 <= vector_size sample_input <= vector_max_size)
  ∧ ∃ st prefixSums,
      result_of (phase1 sample_input (vector_size sample_input)
                        (chunk_size (vector_size sample_input) 4) 4
                        (vector_new (vector_size sample_input)))
      = Done st
      ∧ phase2 st.2 4 = Done prefixSums.
Proof.
  assert (H1 : 1 <= 4 <= int_max) by (by vm_compute).
  assert (H2 : 1 <= vector_size sample_input <= vector_max_size)
    by (by vm_compute).
  split; [exact (conj H1 H2)|].
  destruct (X6_phase2_postcondition sample_input 4 H1 H2)
    as (st & prefixSums & Hres & Hp2 & _).
  exists st, prefixSums. exact (conj Hres Hp2).
Defined.

End PhasePostconditions.

Section ThreadFootprints.
Local Open Scope Z_scope.

(** X7.  A thread writes only to its own chunk: the phase-1 body of
    thread [t] returns without an out-of-range access and leaves every
    element of [result] outside chunk [t] and every slot of [lastValues]
    other than [t] as it was; the phase-3 body of thread [t >= 1] leaves
    every element of [result] outside chunk [t] as it was.  So the threads
    of one phase never write to a common location. *)
Theorem X7_thread_writes_own_chunk input numThreads t result lastValues prefixSums :
  1 <= numThreads <= int_max →
  1 <= vector_size input <= vector_max_size →
  0 <= t < numThreads →
  vector_size result = vector_size input →
  vector_size lastValues = numThreads →
  vector_size prefixSums = numThreads →
  let n := vector_size input in
  let chunkSize := chunk_size n numThreads in
  (∃ result' lastValues',
     scan_chunk input n chunkSize t (result, lastValues)
     = Done (result', lastValues')
     ∧ vector_size result' = n
     ∧ vector_size lastValues' = numThreads
     ∧ (∀ i : nat, ¬ in_chunk n chunkSize t (Z.of_nat i) →
                   result' !! i = result !! i)
     ∧ (∀ u : nat, Z.of_nat u ≠ t → lastValues' !! u = lastValues !! u))
  ∧ (1 <= t →
     ∃ result',
       add_offset prefixSums n chunkSize t result = Done result'
       ∧ vector_size result' = n
       ∧ (∀ i : nat, ¬ in_chunk n chunkSize t (Z.of_nat i) →
                     result' !! i = result !! i)).
Proof.
  intros HT Hn Ht Hres Hlv Hps n chunkSize.
  destruct (parallel_setup n numThreads HT Hn)
    as (c & T & Hcn & HTn & Hc & HT1 & HTc & Hcover).
  subst chunkSize n. rewrite Hcn.
  destruct (Z_of_nat_complete t) as [k ->]; [lia|].
  assert (HkT : (k < T)%nat) by lia.
  unfold vector_size in Hres, Hlv, Hps.
  assert (Hres' : length result = length input) by lia.
  assert (Hlv' : length lastValues = T) by lia.
  assert (Hps' : length prefixSums = T) by lia.
  unfold in_chunk.
  rewrite (chunk_start_nat c T Hc HTc k HkT),
    (chunk_end_nat input c T Hc HTc k HkT).
  pose proof (length_chunk input c k) as Hlc.
  split.
  - rewrite (scan_chunk_Done input c T Hc HTc k result lastValues) by done.
    unfold scan_chunk_pure. case_decide as Hempty; simpl.
    + exists result, lastValues.
      split; [done|]. split; [unfold vector_size; lia|].
      split; [unfold vector_size; lia|]. done.
    + eexists _, _. split; [done|].
      split; [unfold vector_size; rewrite length_scanned_chunk by done; lia|].
      split; [unfold vector_size; rewrite length_insert; lia|].
      split.
      * intros i Hi. rewrite lookup_scanned_chunk by (done || lia).
        rewrite decide_False; [done|]. lia.
      * intros u Hu. apply list_lookup_insert_ne. lia.
  - intros Hk1.
    rewrite (add_offset_Done input c T Hc HTc prefixSums k result) by (done || lia).
    eexists. split; [done|].
    split; [unfold vector_size; rewrite length_shifted_chunk by done; lia|].
    intros i Hi.
    destruct (decide (length input ≤ k * c)%nat) as [Hempty|Hne].
    + unfold shifted_chunk. by rewrite decide_True by done.
    + rewrite lookup_shifted_chunk by (done || lia).
      rewrite decide_False; [done|]. lia.
Qed.

(** The hypotheses of X7 hold for thread 1 of 3 on the sample vector. *)
Lemma X7_witness :
  (1 <= 3 <= int_max ∧ 1 <= vector_size sample_input <= vector_max_size
   ∧ 0 <= 1 < 3
   ∧ vector_size (vector_new 1003) = vector_size sample_input
   ∧ vector_size (vector_new 3) = 3)
  ∧ ∃ result' lastValues',
      scan_chunk sample_input (vector_size sample_input)
                 (chunk_size (vector_size sample_input) 3) 1
                 (vector_new 1003, vector_new 3)
      = Done (result', lastValues')
      ∧ vector_size result' = vector_size sample_input.
Proof.
  assert (H1 : 1 <= 3 <= int_max) by (by vm_compute).
  assert (H2 : 1 <= vector_size sample_input <= vector_max_size)
    by (by vm_compute).
  assert (H3 : 0 <= 1 < 3) by (by vm_compute).
  assert (H4 : vector_size (vector_new 1003) = vector_size sample_input)
    by reflexivity.
  assert (H5 : vector_size (vector_new 3) = 3) by reflexivity.
  split; [exact (conj H1 (conj H2 (conj H3 (conj H4 H5))))|].
  destruct (proj1 (X7_thread_writes_own_chunk sample_input 3 1
                     (vector_new 1003) (vector_new 3) (vector_new 3)
                     H1 H2 H3 H4 H5 H5))
    as (result' & lastValues' & Hrun & Hlen & _).
  exists result', lastValues'. exact (conj Hrun Hlen).
Defined.

(** X8.  The order in which the threads of a phase run does not matter:
    when the phase-1 bodies run in any order [ks1] of the thread ids
    [0 .. T-1] they leave the state that phase 1 of the source leaves, and
    when the phase-3 bodies then run in any order [ks3] of the thread ids
    [1 .. T-1] they leave the inclusive scan of the input, as phase 3 of
    the source does. *)
Theorem X8_any_thread_order input (T : nat) (ks1 ks3 : list nat) :
  1 <= Z.of_nat T <= int_max →
  1 <= vector_size input <= vector_max_size →
  ks1 ≡ₚ seq 0 T → ks3 ≡ₚ seq 1 (T - 1) →
  let n := vector_size input in
  let numThreads := Z.of_nat T in
  let chunkSize := chunk_size n numThreads in
  ∃ st prefixSums,
    for_each (scan_chunk input n chunkSize) (Z.of_nat <$> ks1)
             (vector_new n, vector_new numThreads) = Done st
    ∧ result_of (phase1 input n chunkSize numThreads (vector_new n)) = Done st
    ∧ phase2 st.2 numThreads = Done prefixSums
    ∧ for_each (add_offset prefixSums n chunkSize) (Z.of_nat <$> ks3) st.1
      = Done (scan_list input)
    ∧ result_of (phase3 prefixSums n chunkSize numThreads st.1)
      = Done (scan_list input).
Proof.
  intros HT Hn Hks1 Hks3 n numThreads chunkSize.
  destruct (parallel_setup n numThreads HT Hn)
    as (c & T' & Hcn & HTn & Hc & HT1 & HTc & Hcover).
  subst chunkSize n numThreads.
  apply Nat2Z.inj in HTn. subst T'.
  assert (Hcover' : (length input ≤ T * c)%nat)
    by (unfold vector_size in Hcover; lia).
  destruct (length_after_phase1 input c T) as [Hlen1 Hlen2].
  rewrite Hcn.
  exists (after_phase1 input c T), (carry_prefix input c T).
  split.
  { replace (vector_new (vector_size input)) with (replicate (length input) 0)
      by (unfold vector_size; by rewrite vector_new_of_nat).
    rewrite (vector_new_of_nat T).
    rewrite (phase1_schedule_independent input c T Hc HTc ks1);
      [|done|simpl; by rewrite length_replicate..].
    change (seqZ 0 (Z.of_nat T)) with (seqZ (Z.of_nat 0) (Z.of_nat T)).
    rewrite seqZ_of_nat.
    rewrite (phase1_loop input c T Hc HTc (seq 0 T));
      [done| |simpl; by rewrite length_replicate..].
    apply list.Forall_forall. intros k Hk. apply elem_of_seq in Hk. lia. }
  split; [by rewrite (phase1_eq input c T Hc HTc)|].
  split; [by apply phase2_eq|].
  assert (Hlenp : length (carry_prefix input c T) = T)
    by (unfold carry_prefix; by rewrite length_scan_list).
  split.
  { rewrite (phase3_schedule_independent input c T Hc HTc _ ks3) by done.
    change (seqZ 1 (Z.of_nat (T - 1)))
      with (seqZ (Z.of_nat 1) (Z.of_nat (T - 1))).
    rewrite seqZ_of_nat.
    rewrite (phase3_loop input c T Hc HTc); [| |done|done].
    - f_equal. apply (after_phase3_scan_list input c T Hc Hcover').
    - apply list.Forall_forall. intros k Hk. apply elem_of_seq in Hk. lia. }
  rewrite (phase3_eq input c T Hc HTc HT1). simpl.
  by rewrite (after_phase3_scan_list input c T Hc Hcover').
Qed.

(** The hypotheses of X8 hold for 3 threads on the sample vector, phase 1
    run in the order 1, 0, 2 and phase 3 in the order 2, 1. *)
Lemma X8_witness :
  (1 <= Z.of_nat 3 <= int_max
   ∧ 1 <= vector_size sample_input <= vector_max_size
   ∧ [1; 0; 2]%nat ≡ₚ seq 0 3 ∧ [2; 1]%nat ≡ₚ seq 1 (3 - 1))
  ∧ ∃ st prefixSums,
      for_each (scan_chunk sample_input (vector_size sample_input)
                  (chunk_size (vector_size sample_input) (Z.of_nat 3)))
               (Z.of_nat <$> [1; 0; 2]%nat)
               (vector_new (vector_size sample_input), vector_new (Z.of_nat 3))
      = Done st
      ∧ phase2 st.2 (Z.of_nat 3) = Done prefixSums
      ∧ for_each (add_offset prefixSums (vector_size sample_input)
                    (chunk_size (vector_size sample_input) (Z.of_nat 3)))
                 (Z.of_nat <$> [2; 1]%nat) st.1
        = Done (scan_list sample_input).
Proof.
  assert (H1 : 1 <= Z.of_nat 3 <= int_max) by (by vm_compute).
  assert (H2 : 1 <= vector_size sample_input <= vector_max_size)
    by (by vm_compute).
  assert (H3 : [1; 0; 2]%nat ≡ₚ seq 0 3) by (simpl; apply perm_swap).
  assert (H4 : [2; 1]%nat ≡ₚ seq 1 (3 - 1)) by (simpl; apply perm_swap).
  split; [exact (conj H1 (conj H2 (conj H3 H4)))|].
  destruct (X8_any_thread_order sample_input 3 [1; 0; 2]%nat [2; 1]%nat
              H1 H2 H3 H4)
    as (st & prefixSums & Hp1 & _ & Hp2 & Hp3 & _).
  exists st, prefixSums. exact (conj Hp1 (conj Hp2 Hp3)).
Defined.

End ThreadFootprints.

Section GeneratedData.
Local Open Scope Z_scope.

Variable engine : Type.
Variable mt19937 : Z → engine.
Variable uniform_int_distribution : Z → Z → engine → Z * engine.

(** The contract of [std::uniform_int_distribution<int>(a, b)]: the value
    drawn lies in [[a, b]]. *)
Hypothesis distribution_range :
  ∀ a b g, a <= b → a <= (uniform_int_distribution a b g).1 <= b.

(** X9.  The data flow of [main]: for every size up to 21,474,836, every
    seed and every thread count, the scan of the generated data has [size]
    elements, its element [i] is the exact sum of the first [i + 1]
    elements of the data, between [i + 1] and [100 * (i + 1)], so no
    addition overflows, and the output is strictly increasing.  The three
    sizes [main] uses are within this bound. *)
Theorem X9_scan_of_generated_data (size rd numThreads : Z) :
  0 <= size <= max_safe_size → numThreads <= int_max →
  ∃ data out,
    generateRandomData engine mt19937 uniform_int_distribution size rd = Done data
    ∧ result_of (parallelInclusiveScan data numThreads) = Done out
    ∧ vector_size out = size
    ∧ (∀ i : nat, (i < length out)%nat →
         out !! i = Some (sumZ (take (S i) data))
         ∧ Z.of_nat i + 1 <= sumZ (take (S i) data) <= 100 * (Z.of_nat i + 1)
         ∧ sumZ (take (S i) data) <= int_max)
    ∧ strictly_increasing out
    ∧ Forall (fun s => 0 <= s <= max_safe_size) benchmark_sizes.
Proof using distribution_range.
  intros Hsize HT.
  destruct (Z_of_nat_complete size) as [k ->]; [lia|].
  set (data := (draws engine uniform_int_distribution k (mt19937 rd)).1).
  assert (Hlen : length data = k) by apply length_draws.
  assert (Hrange : Forall (fun x => 1 <= x <= 100) data)
    by (by apply draws_range).
  assert (Hpos : Forall (fun x => 0 <= x) data).
  { apply list.Forall_forall. intros x Hx.
    pose proof (proj1 (list.Forall_forall _ _) Hrange x Hx) as Hx'.
    simpl in Hx'. lia. }
  pose proof (sumZ_bounds 1 100 data Hrange) as Hsum.
  unfold max_safe_size in Hsize.
  assert (Hfit : sumZ data <= int_max) by (unfold int_max; lia).
  assert (Hmax : Z.of_nat k <= vector_max_size).
  { assert (21474836 <= vector_max_size) by (by vm_compute). lia. }
  assert (Hexact : ∀ i : nat, (i < length data)%nat →
            scan_list data !! i = Some (sumZ (take (S i) data))).
  { intros i Hi. by apply scan_list_exact. }
  exists data, (scan_list data).
  split; [apply generateRandomData_Done|].
  split; [apply parallel_result; [done|unfold vector_size; lia]|].
  split; [unfold vector_size; rewrite length_scan_list; lia|].
  split.
  { intros i Hi. rewrite length_scan_list in Hi.
    split; [by apply Hexact|].
    pose proof (sumZ_bounds 1 100 (take (S i) data) (Forall_take _ _ _ Hrange))
      as Hpre.
    rewrite length_take in Hpre.
    pose proof (sumZ_take_le data (S i) Hpos). lia. }
  split; [|repeat constructor; unfold max_safe_size; lia].
  intros i x y Hx Hy.
  pose proof (lookup_lt_Some _ _ _ Hy) as Hi. rewrite length_scan_list in Hi.
  rewrite Hexact in Hx, Hy by lia.
  destruct (lookup_lt_is_Some_2 data (S i) Hi) as [d Hd].
  rewrite (take_S_r _ _ _ Hd), sumZ_app in Hy. simpl in Hy.
  pose proof (proj1 (list.Forall_forall _ _) Hrange d
                (list_elem_of_lookup_2 _ _ _ Hd)) as Hd'.
  simpl in Hd'. injection Hx as <-. injection Hy as <-. lia.
Qed.

End GeneratedData.

(** The hypotheses of X9 hold for the sample engine, a size of 6 and 3
    threads. *)
Lemma X9_witness :
  ((0 <= 6 <= max_safe_size ∧ 3 <= int_max)
   ∧ ∃ data out,
       generateRandomData Z lcg_seed lcg_distribution 6 42 = Done data
       ∧ result_of (parallelInclusiveScan data 3) = Done out
       ∧ vector_size out = 6)%Z.
Proof.
  assert (H1 : (0 <= 6 <= max_safe_size)%Z) by (by vm_compute).
  assert (H2 : (3 <= int_max)%Z) by (by vm_compute).
  split; [exact (conj H1 H2)|].
  destruct (X9_scan_of_generated_data Z lcg_seed lcg_distribution
              lcg_distribution_range 6 42 3 H1 H2)
    as (data & out & Hgen & Hscan & Hlen & _).
  exists data, out. exact (conj Hgen (conj Hscan Hlen)).
Defined.

Section SweepRuns.
Local Open Scope Z_scope.

Variable time : Type.
Variable time_lt : time → time → bool.
Variable dbl_max : time.
Variable elapsed : Z → time.

(** The events of the scans that one run of the sweep measures. *)
Lemma sweep_step_eq data k (s : sweep time) :
  k <= int_max → vector_size data <= vector_max_size →
  sweep_step time time_lt elapsed data k s
  = mkM (trace (parallelInclusiveScan data k))
        (Done (sweep_pure time time_lt elapsed s k)).
Proof.
  intros Hk Hn. pose proof (parallel_result data k Hk Hn) as Hr.
  unfold sweep_step, measureTime, sweep_pure.
  destruct (parallelInclusiveScan data k) as [tr r]. simpl in Hr. subst r.
  unfold mbind, M_bind, mret, M_ret. simpl.
  destruct (time_lt (elapsed k) (bestTime s)); simpl; by rewrite !app_nil_r.
Qed.

Lemma sweep_loop_eq data ks (s : sweep time) :
  Forall (fun k => k <= int_max) ks → vector_size data <= vector_max_size →
  for_eachM (sweep_step time time_lt elapsed data) ks s
  = mkM (concat ((fun k => trace (parallelInclusiveScan data k)) <$> ks))
        (Done (foldl (sweep_pure time time_lt elapsed) s ks)).
Proof.
  intros Hks Hn. revert s. induction ks as [|k ks IH]; intros s; [done|].
  pose proof (Forall_inv Hks) as Hk. pose proof (Forall_inv_tail Hks) as Hks'.
  cbn [for_eachM]. rewrite sweep_step_eq by done.
  unfold mbind, M_bind. cbn [result_of trace]. cbv zeta.
  rewrite IH by done. done.
Qed.

Lemma experiment3_eq hwThreads data :
  vector_size data <= vector_max_size →
  let maxK := maxK_of hwThreads in
  let s := foldl (sweep_pure time time_lt elapsed) (mkSweep [] dbl_max 1)
                 (seqZ 1 maxK) in
  experiment3 time time_lt dbl_max elapsed hwThreads data
  = mkM (concat ((fun k => trace (parallelInclusiveScan data k)) <$> seqZ 1 maxK))
        (Done (mkReport maxK (elapsed 0) (results s) (bestK s) (bestTime s)
                        (bestK s <? Z.quot maxK 2))).
Proof.
  intros Hn maxK s. unfold experiment3, measureTime. fold maxK.
  pose proof (maxK_of_le_32 hwThreads) as H32. fold maxK in H32.
  rewrite sequential_scan_Done.
  rewrite sweep_loop_eq; [| |done].
  - unfold mbind, M_bind, mret, M_ret, lift. simpl.
    by rewrite app_nil_r.
  - apply list.Forall_forall. intros k Hk%elem_of_seqZ. unfold int_max. lia.
Qed.



(** The threads created by the scans of [1 .. j] threads on data of at
    least 1000 elements. *)
Lemma sweep_trace_counts data (j : nat) :
  Z.of_nat j <= int_max →
  1000 <= vector_size data <= vector_max_size →
  let tr := concat ((fun k => trace (parallelInclusiveScan data k))
                      <$> seqZ 1 (Z.of_nat j)) in
  Z.of_nat (count_events is_spawn tr) = Z.max 0 (Z.of_nat j * Z.of_nat j - 1)
  ∧ count_events is_join tr = count_events is_spawn tr
  ∧ Z.of_nat (count_events is_divide tr) = Z.max 0 (Z.of_nat j - 1).
Proof.
  intros Hj Hn. induction j as [|j IH]; [done|]. cbv zeta.
  rewrite seqZ_S, fmap_app, concat_app, !count_events_app.
  destruct IH as (Hs & Hjn & Hd); [lia|].
  rewrite Hjn. cbn [fmap list_fmap concat]. rewrite app_nil_r.
  destruct (decide (j = 0)%nat) as [->|Hj0].
  { rewrite fallback_path by (left; lia). done. }
  rewrite parallel_path by lia. cbn [trace].
  destruct (parallel_trace_counts (vector_size data) (S j)) as (Hs' & Hj' & Hd');
    [lia|].
  replace (1 + Z.of_nat j) with (Z.of_nat (S j)) by lia.
  rewrite Hs', Hj', Hd'. split; [lia|]. split; lia.
Qed.


(** X11.  On data of at least 1000 elements, with a hardware concurrency
    of at least 1 whose fourfold is an [int], one run of the sweep creates
    [maxK * maxK - 1] threads (1023 for [maxK = 32]) and joins as many, and
    evaluates [maxK - 1] chunk-size divisions, none of them by zero. *)
Theorem X11_sweep_thread_count hwThreads data :
  1 <= hwThreads → hwThreads * 4 <= int_max →
  1000 <= vector_size data <= vector_max_size →
  let maxK := maxK_of hwThreads in
  let tr := trace (experiment3 time time_lt dbl_max elapsed hwThreads data) in
  4 <= maxK <= 32
  ∧ Z.of_nat (count_events is_spawn tr) = maxK * maxK - 1
  ∧ count_events is_join tr = count_events is_spawn tr
  ∧ Z.of_nat (count_events is_divide tr) = maxK - 1
  ∧ ∃ rep,
      result_of (experiment3 time time_lt dbl_max elapsed hwThreads data)
      = Done rep.
Proof.
  intros Hhw Hfit Hn maxK tr.
  assert (HmaxK : maxK = Z.min 32 (hwThreads * 4))
    by (apply maxK_of_no_overflow; lia).
  split; [lia|].
  unfold tr. rewrite (experiment3_eq hwThreads data) by lia.
  cbn [trace result_of]. fold maxK.
  destruct (sweep_trace_counts data (Z.to_nat maxK)) as (Hs & Hj & Hd);
    [unfold int_max; lia|done|].
  rewrite Z2Nat.id in Hs, Hj, Hd by lia.
  rewrite Hs, Hj, Hd.
  split; [nia|]. split; [done|]. split; [lia|]. by eexists.
Qed.


End SweepRuns.


(** The hypotheses of X11 hold for the sample vector on a platform of one
    hardware thread: [maxK = 4], 15 threads. *)
Lemma X11_witness :
  ((1 <= 1 ∧ 1 * 4 <= int_max
    ∧ 1000 <= vector_size sample_input <= vector_max_size)
   ∧ 4 <= maxK_of 1 <= 32)%Z.
Proof.
  assert (H1 : (1 <= 1)%Z) by (by vm_compute).
  assert (H2 : (1 * 4 <= int_max)%Z) by (by vm_compute).
  assert (H3 : (1000 <= vector_size sample_input <= vector_max_size)%Z)
    by (by vm_compute).
  split; [exact (conj H1 (conj H2 H3))|].
  exact (proj1 (X11_sweep_thread_count Z Z.ltb sample_dbl_max sample_elapsed
                  1%Z sample_input H1 H2 H3)).
Defined.

